(** * CSS selector builder (src/06-objects-tasks.js)

    A shallow embedding of the [Builder] class and of the
    [cssSelectorBuilder] facade, followed by the properties of the
    builder's ordering and cardinality policy, of [stringify] and of
    [combine].

    JavaScript objects live in a store indexed by references: a builder
    is a reference to its [this.selector] record, methods mutate the
    record in place and return [this], and a [throw] leaves the store as
    it was at the moment of the throw. *)

From Stdlib Require Import String Ascii List Arith Lia Bool.
From stdpp Require Import base option list gmap.

Open Scope string_scope.

(** ** JavaScript primitives used by the source *)

(** [a !== b] on strings. *)
Definition strict_ne (a b : string) : bool := negb (String.eqb a b).

(** [Array.prototype.push], seen as a function of the array. *)
Definition push {A : Type} (arr : list A) (x : A) : list A := (arr ++ [x])%list.

(** [Array.prototype.join] on an array of strings. *)
Fixpoint join (sep : string) (arr : list string) : string :=
  match arr with
  | [] => ""
  | [x] => x
  | x :: rest => x ++ sep ++ join sep rest
  end.

(** [Array.prototype.forEach] with a callback that updates an accumulator. *)
Definition forEach {A S : Type} (arr : list A) (f : S -> A -> S) (acc : S) : S :=
  fold_left f arr acc.

(** [opt || dflt] where [opt] is a string property that may be absent:
    [undefined] and the empty string are both falsy. *)
Definition or_string (opt : option string) (dflt : string) : string :=
  match opt with
  | Some s => if String.eqb s "" then dflt else s
  | None => dflt
  end.

(** [opt || dflt] where [opt] is an array property that may be absent:
    every array, even an empty one, is truthy. *)
Definition or_array (opt : option (list string)) (dflt : list string) : list string :=
  match opt with
  | Some l => l
  | None => dflt
  end.

(** ** The selector record, [this.selector] *)

Module Selector.

Record t : Type := mk {
  element : string;
  id : string;
  class : list string;
  attr : list string;
  pseudoClass : list string;
  pseudoElement : string
}.

Definition set_element (v : string) (s : t) : t :=
  mk v (id s) (class s) (attr s) (pseudoClass s) (pseudoElement s).
Definition set_id (v : string) (s : t) : t :=
  mk (element s) v (class s) (attr s) (pseudoClass s) (pseudoElement s).
Definition set_class (v : list string) (s : t) : t :=
  mk (element s) (id s) v (attr s) (pseudoClass s) (pseudoElement s).
Definition set_attr (v : list string) (s : t) : t :=
  mk (element s) (id s) (class s) v (pseudoClass s) (pseudoElement s).
Definition set_pseudoClass (v : list string) (s : t) : t :=
  mk (element s) (id s) (class s) (attr s) v (pseudoElement s).
Definition set_pseudoElement (v : string) (s : t) : t :=
  mk (element s) (id s) (class s) (attr s) (pseudoClass s) v.

(** The record every field of which holds its initial value. *)
Definition empty : t := mk "" "" [] [] [] "".

End Selector.

(** The [options] argument of the constructor: an object literal in
    which any property may be absent. *)
Module Options.

Record t : Type := mk {
  element : option string;
  id : option string;
  class : option (list string);
  attr : option (list string);
  pseudoClass : option (list string);
  pseudoElement : option string
}.

Definition none : t := mk None None None None None None.

End Options.

(** ** Store, outcomes and the monad of method bodies *)

Definition loc : Type := nat.

Abbreviation heap := (gmap loc Selector.t).

(** A call either returns a value or throws an [Error] with a message. *)
Inductive outcome (A : Type) : Type :=
| Return (a : A)
| Throw (msg : string).
Arguments Return {A} a.
Arguments Throw {A} msg.

(** A computation reads and updates the store. [None] stands for a
    method called on a reference that denotes no builder, which no
    JavaScript run can do. *)
Definition M (A : Type) : Type := heap -> option (outcome A * heap).

Definition ret {A : Type} (a : A) : M A := fun h => Some (Return a, h).

Definition throw {A : Type} (msg : string) : M A := fun h => Some (Throw msg, h).

Definition bind {A B : Type} (m : M A) (k : A -> M B) : M B :=
  fun h =>
    match m h with
    | Some (Return a, h') => k a h'
    | Some (Throw msg, h') => Some (Throw msg, h')
    | None => None
    end.

Declare Scope js_scope.
Delimit Scope js_scope with js.
Notation "'let*' x ':=' m 'in' k" := (bind m (fun x => k))
  (at level 10, x name, m at level 100, k at level 200) : js_scope.
Notation "m ';;' k" := (bind m (fun _ => k))
  (at level 100, k at level 200, right associativity) : js_scope.

(** Read [this.selector]. *)
Definition read (this : loc) : M Selector.t :=
  fun h => match h !! this with
           | Some s => Some (Return s, h)
           | None => None
           end.

(** Assign to a field of [this.selector]. *)
Definition assign (this : loc) (f : Selector.t -> Selector.t) : M unit :=
  fun h => match h !! this with
           | Some s => Some (Return tt, <[this := f s]> h)
           | None => None
           end.

(** [new]: a reference no live object has. *)
Definition new (s : Selector.t) : M loc :=
  fun h => let l := fresh (dom h) in Some (Return l, <[l := s]> h).

(** The two messages of the source. *)
Definition order_message : string :=
  "Selector parts should be arranged in the following order: element, id, class, attribute, pseudo-class, pseudo-element".

Definition duplicate_message : string :=
  "Element, id and pseudo-element should not occur more then one time inside the selector".

(** ** class Builder *)

Module Builder.

Local Open Scope js_scope.

Definition constructor (options : Options.t) : M loc :=
  new (Selector.mk
         (or_string (Options.element options) "")
         (or_string (Options.id options) "")
         (or_array (Options.class options) [])
         (or_array (Options.attr options) [])
         (or_array (Options.pseudoClass options) [])
         (or_string (Options.pseudoElement options) "")).

(** The fields [class], [attr] and [pseudoClass] always hold arrays, for
    which [typeof] is ['object']; [.length] is truthy when it is not 0. *)
Definition createSelector (selector : Selector.t) : string :=
  let arr := [] in
  let arr := push arr (Selector.element selector) in
  let arr :=
    if strict_ne (Selector.id selector) ""
    then push arr ("#" ++ Selector.id selector) else arr in
  let arr :=
    if negb (Nat.eqb (List.length (Selector.class selector)) 0)
    then push arr ("." ++ join "." (Selector.class selector)) else arr in
  let arr :=
    forEach (Selector.attr selector)
            (fun arr element => push arr ("[" ++ element ++ "]")) arr in
  let arr :=
    if negb (Nat.eqb (List.length (Selector.pseudoClass selector)) 0)
    then push arr (":" ++ join ":" (Selector.pseudoClass selector)) else arr in
  let arr :=
    if strict_ne (Selector.pseudoElement selector) ""
    then push arr ("::" ++ Selector.pseudoElement selector) else arr in
  join "" arr.

Definition resetData (this : loc) : M unit :=
  assign this (Selector.set_element "") ;;
  assign this (Selector.set_id "") ;;
  assign this (Selector.set_class []) ;;
  assign this (Selector.set_attr []) ;;
  assign this (Selector.set_pseudoClass []) ;;
  assign this (Selector.set_pseudoElement "").

Definition stringify (this : loc) : M string :=
  let* selector := read this in
  let result := createSelector selector in
  resetData this ;;
  ret result.

Definition element (this : loc) (value : string) : M loc :=
  let* s := read this in
  if strict_ne (Selector.id s) ""
     || Nat.ltb 0 (List.length (Selector.class s))
     || Nat.ltb 0 (List.length (Selector.attr s))
     || Nat.ltb 0 (List.length (Selector.pseudoClass s))
     || strict_ne (Selector.pseudoElement s) ""
  then resetData this ;; throw order_message
  else
    if strict_ne (Selector.element s) ""
    then resetData this ;; throw duplicate_message
    else assign this (Selector.set_element value) ;; ret this.

Definition id (this : loc) (value : string) : M loc :=
  let* s := read this in
  if Nat.ltb 0 (List.length (Selector.class s))
     || Nat.ltb 0 (List.length (Selector.attr s))
     || Nat.ltb 0 (List.length (Selector.pseudoClass s))
     || strict_ne (Selector.pseudoElement s) ""
  then resetData this ;; throw order_message
  else
    if strict_ne (Selector.id s) ""
    then resetData this ;; throw duplicate_message
    else assign this (Selector.set_id value) ;; ret this.

Definition class (this : loc) (value : string) : M loc :=
  let* s := read this in
  if Nat.ltb 0 (List.length (Selector.attr s))
     || Nat.ltb 0 (List.length (Selector.pseudoClass s))
     || strict_ne (Selector.pseudoElement s) ""
  then resetData this ;; throw order_message
  else
    assign this (fun s => Selector.set_class (push (Selector.class s) value) s) ;;
    ret this.

Definition attr (this : loc) (value : string) : M loc :=
  let* s := read this in
  if Nat.ltb 0 (List.length (Selector.pseudoClass s))
     || strict_ne (Selector.pseudoElement s) ""
  then resetData this ;; throw order_message
  else
    assign this (fun s => Selector.set_attr (push (Selector.attr s) value) s) ;;
    ret this.

Definition pseudoClass (this : loc) (value : string) : M loc :=
  let* s := read this in
  if strict_ne (Selector.pseudoElement s) ""
  then resetData this ;; throw order_message
  else
    assign this (fun s => Selector.set_pseudoClass (push (Selector.pseudoClass s) value) s) ;;
    ret this.

Definition pseudoElement (this : loc) (value : string) : M loc :=
  let* s := read this in
  if strict_ne (Selector.pseudoElement s) ""
  then resetData this ;; throw duplicate_message
  else assign this (Selector.set_pseudoElement value) ;; ret this.

End Builder.

(** ** The facade, const cssSelectorBuilder *)

(** What [combine] accepts and returns: any object with a [stringify]
    method.  The source has two kinds, a [Builder] and the object literal
    [combine] returns, which closes over the constant [result]. *)
Inductive stringifiable : Type :=
| ABuilder (this : loc)
| AComposite (result : string).

Definition stringify (x : stringifiable) : M string :=
  match x with
  | ABuilder this => Builder.stringify this
  | AComposite result => ret result
  end.

Module cssSelectorBuilder.

Local Open Scope js_scope.

Definition element (value : string) : M loc :=
  Builder.constructor
    (Options.mk (Some value) None None None None None).

Definition id (value : string) : M loc :=
  Builder.constructor
    (Options.mk None (Some value) None None None None).

Definition class (value : string) : M loc :=
  Builder.constructor
    (Options.mk None None (Some [value]) None None None).

Definition attr (value : string) : M loc :=
  Builder.constructor
    (Options.mk None None None (Some [value]) None None).

Definition pseudoClass (value : string) : M loc :=
  Builder.constructor
    (Options.mk None None None None (Some [value]) None).

Definition pseudoElement (value : string) : M loc :=
  Builder.constructor
    (Options.mk None None None None None (Some value)).

Definition combine (selector1 : stringifiable) (combinator : string)
           (selector2 : stringifiable) : M stringifiable :=
  let* sel1 := stringify selector1 in
  let* sel2 := stringify selector2 in
  let result := join " " [sel1; combinator; sel2] in
  ret (AComposite result).

End cssSelectorBuilder.

(** ** Fragments and categories

    The six fragment methods, as data, so that statements can range over
    every fragment call. *)

Inductive category : Type :=
| CElement | CId | CClass | CAttr | CPseudoClass | CPseudoElement.

(** Position in the order element, id, class, attribute, pseudo-class,
    pseudo-element. *)
Definition rank (c : category) : nat :=
  match c with
  | CElement => 0
  | CId => 1
  | CClass => 2
  | CAttr => 3
  | CPseudoClass => 4
  | CPseudoElement => 5
  end.

(** Element, id and pseudo-element hold one token; the others a list. *)
Definition singleton (c : category) : bool :=
  match c with
  | CElement | CId | CPseudoElement => true
  | CClass | CAttr | CPseudoClass => false
  end.

Inductive fragment : Type :=
| Element (value : string)
| Id (value : string)
| Class (value : string)
| Attr (value : string)
| PseudoClass (value : string)
| PseudoElement (value : string).

Definition category_of (f : fragment) : category :=
  match f with
  | Element _ => CElement
  | Id _ => CId
  | Class _ => CClass
  | Attr _ => CAttr
  | PseudoClass _ => CPseudoClass
  | PseudoElement _ => CPseudoElement
  end.

(** The method call [this.f(value)]. *)
Definition call (this : loc) (f : fragment) : M loc :=
  match f with
  | Element v => Builder.element this v
  | Id v => Builder.id this v
  | Class v => Builder.class this v
  | Attr v => Builder.attr this v
  | PseudoClass v => Builder.pseudoClass this v
  | PseudoElement v => Builder.pseudoElement this v
  end.

(** The factory call [cssSelectorBuilder.f(value)]. *)
Definition create (f : fragment) : M loc :=
  match f with
  | Element v => cssSelectorBuilder.element v
  | Id v => cssSelectorBuilder.id v
  | Class v => cssSelectorBuilder.class v
  | Attr v => cssSelectorBuilder.attr v
  | PseudoClass v => cssSelectorBuilder.pseudoClass v
  | PseudoElement v => cssSelectorBuilder.pseudoElement v
  end.

(** A category is populated in a selector record when its token is not
    the empty string (element, id, pseudo-element) or its list is not
    empty (class, attr, pseudo-class). *)
Definition populated (c : category) (s : Selector.t) : Prop :=
  match c with
  | CElement => Selector.element s <> ""
  | CId => Selector.id s <> ""
  | CClass => Selector.class s <> []
  | CAttr => Selector.attr s <> []
  | CPseudoClass => Selector.pseudoClass s <> []
  | CPseudoElement => Selector.pseudoElement s <> ""
  end.

(** Some category after [c] is populated. *)
Definition later_populated (c : category) (s : Selector.t) : Prop :=
  exists c', rank c < rank c' /\ populated c' s.

(** The state a successful fragment call leaves. *)
Definition add_fragment (f : fragment) (s : Selector.t) : Selector.t :=
  match f with
  | Element v => Selector.set_element v s
  | Id v => Selector.set_id v s
  | Class v => Selector.set_class (Selector.class s ++ [v])%list s
  | Attr v => Selector.set_attr (Selector.attr s ++ [v])%list s
  | PseudoClass v => Selector.set_pseudoClass (Selector.pseudoClass s ++ [v])%list s
  | PseudoElement v => Selector.set_pseudoElement v s
  end.

(** ** The assembly rule of the specification

    The string [stringify] is specified to return, written from the
    words of the specification: the categories in their fixed order, each
    with its prefix, nothing between them. *)

Definition element_part (s : Selector.t) : string := Selector.element s.

Definition id_part (s : Selector.t) : string :=
  if String.eqb (Selector.id s) "" then "" else "#" ++ Selector.id s.

Definition class_part (s : Selector.t) : string :=
  match Selector.class s with
  | [] => ""
  | _ :: _ => "." ++ String.concat "." (Selector.class s)
  end.

Definition attr_part (s : Selector.t) : string :=
  String.concat "" (map (fun a => "[" ++ a ++ "]") (Selector.attr s)).

Definition pseudoClass_part (s : Selector.t) : string :=
  match Selector.pseudoClass s with
  | [] => ""
  | _ :: _ => ":" ++ String.concat ":" (Selector.pseudoClass s)
  end.

Definition pseudoElement_part (s : Selector.t) : string :=
  if String.eqb (Selector.pseudoElement s) "" then "" else "::" ++ Selector.pseudoElement s.

Definition assembled (s : Selector.t) : string :=
  element_part s ++ id_part s ++ class_part s ++ attr_part s
  ++ pseudoClass_part s ++ pseudoElement_part s.

(** ** The six fragment methods as one transition

    The guards of the source, per category, and the transition on the
    selector record that each method performs on [this.selector]. *)

Definition populatedb (c : category) (s : Selector.t) : bool :=
  match c with
  | CElement => strict_ne (Selector.element s) ""
  | CId => strict_ne (Selector.id s) ""
  | CClass => Nat.ltb 0 (List.length (Selector.class s))
  | CAttr => Nat.ltb 0 (List.length (Selector.attr s))
  | CPseudoClass => Nat.ltb 0 (List.length (Selector.pseudoClass s))
  | CPseudoElement => strict_ne (Selector.pseudoElement s) ""
  end.

Definition order_violation (c : category) (s : Selector.t) : bool :=
  match c with
  | CElement =>
      populatedb CId s || populatedb CClass s || populatedb CAttr s
      || populatedb CPseudoClass s || populatedb CPseudoElement s
  | CId =>
      populatedb CClass s || populatedb CAttr s
      || populatedb CPseudoClass s || populatedb CPseudoElement s
  | CClass =>
      populatedb CAttr s || populatedb CPseudoClass s || populatedb CPseudoElement s
  | CAttr => populatedb CPseudoClass s || populatedb CPseudoElement s
  | CPseudoClass => populatedb CPseudoElement s
  | CPseudoElement => false
  end.

Definition duplicate_violation (c : category) (s : Selector.t) : bool :=
  singleton c && populatedb c s.

Definition step (f : fragment) (s : Selector.t) : outcome unit * Selector.t :=
  if order_violation (category_of f) s then (Throw order_message, Selector.empty)
  else if duplicate_violation (category_of f) s then (Throw duplicate_message, Selector.empty)
  else (Return tt, add_fragment f s).

(** What the caller of a method observes: [this] or the thrown error. *)
Definition returning {A B : Type} (b : B) (o : outcome A) : outcome B :=
  match o with
  | Return _ => Return b
  | Throw msg => Throw msg
  end.

(** ** Chains of calls

    [calls this fs] is the chain [this.f1(v1).f2(v2)...]; every method
    returns [this], on which the next one is called, and a throw ends
    the chain.  [chain f fs] starts the chain at the facade. *)

Fixpoint calls (this : loc) (fs : list fragment) : M loc :=
  match fs with
  | [] => ret this
  | f :: rest => bind (call this f) (fun this' => calls this' rest)
  end.

Definition chain (f : fragment) (fs : list fragment) : M loc :=
  bind (create f) (fun this => calls this fs).

(** The lowest rank the next call may have after a call of category [c]:
    a list category may repeat, a singleton may not. *)
Definition next_rank (c : category) : nat :=
  if singleton c then S (rank c) else rank c.

(** Categories never go back, and element, id and pseudo-element occur
    at most once. *)
Fixpoint ordered_from (k : nat) (fs : list fragment) : bool :=
  match fs with
  | [] => true
  | f :: rest =>
      Nat.leb k (rank (category_of f))
      && ordered_from (next_rank (category_of f)) rest
  end.

Definition valid_chain (fs : list fragment) : bool := ordered_from 0 fs.

(** The tokens of a sequence of fragments, sorted into the record. *)
Definition collect (fs : list fragment) : Selector.t :=
  fold_left (fun s f => add_fragment f s) fs Selector.empty.

(** What a record may hold when the next call must have rank [k] or more. *)
Definition settled (k : nat) (s : Selector.t) : Prop :=
  forall c, populated c s ->
            if singleton c then rank c < k else rank c <= k.

(** [contains needle hay]: [needle] occurs in [hay]. *)
Fixpoint contains (needle hay : string) : bool :=
  String.prefix needle hay
  || match hay with
     | EmptyString => false
     | String _ rest => contains needle rest
     end.

(** The token a singleton category stores. *)
Definition stored_token (c : category) (s : Selector.t) : option string :=
  match c with
  | CElement => Some (Selector.element s)
  | CId => Some (Selector.id s)
  | CPseudoElement => Some (Selector.pseudoElement s)
  | CClass | CAttr | CPseudoClass => None
  end.

(** ** Operands of [combine] *)

(** An operand of [combine] denotes an object of the store. *)
Definition live (h : heap) (x : stringifiable) : Prop :=
  match x with
  | ABuilder this => is_Some (h !! this)
  | AComposite _ => True
  end.

(** [x.stringify()] called [n] times in a row. *)
Fixpoint stringify_times (x : stringifiable) (n : nat) : M (list string) :=
  match n with
  | O => ret []
  | S n' =>
      bind (stringify x) (fun r =>
      bind (stringify_times x n') (fun rs => ret (r :: rs)))
  end.

Definition dquote : string := String "034"%char EmptyString.

(** ** Sessions *)

(** What a caller does with a builder, and what it sees of each call:
    a fragment call returns a builder, which is [this] or not, or throws;
    [stringify] returns a string.  A caller that catches the error can go
    on using the builder. *)
Inductive action : Type :=
| Fragment (f : fragment)
| Stringify.

Inductive observation : Type :=
| ReturnedBuilder (is_this : bool)
| ReturnedString (r : string)
| Thrown (msg : string).

Definition perform (this : loc) (a : action) (h : heap) : option (observation * heap) :=
  match a with
  | Fragment f =>
      match call this f h with
      | Some (Return b, h') => Some (ReturnedBuilder (Nat.eqb b this), h')
      | Some (Throw msg, h') => Some (Thrown msg, h')
      | None => None
      end
  | Stringify =>
      match Builder.stringify this h with
      | Some (Return r, h') => Some (ReturnedString r, h')
      | Some (Throw msg, h') => Some (Thrown msg, h')
      | None => None
      end
  end.

Fixpoint session (this : loc) (acts : list action) (h : heap)
  : option (list observation * heap) :=
  match acts with
  | [] => Some ([], h)
  | a :: rest =>
      match perform this a h with
      | Some (o, h') =>
          match session this rest h' with
          | Some (os, h'') => Some (o :: os, h'')
          | None => None
          end
      | None => None
      end
  end.

(** The builder [this] has just been reset: by [stringify], or by a
    fragment call that threw. *)
Inductive reset_by (this : loc) (h h' : heap) : Prop :=
| reset_by_stringify r :
    Builder.stringify this h = Some (Return r, h') -> reset_by this h h'
| reset_by_failure f msg :
    call this f h = Some (Throw msg, h') -> reset_by this h h'.

(** The observation and the record one action leaves, from the record. *)
Definition perform_pure (a : action) (s : Selector.t) : observation * Selector.t :=
  match a with
  | Fragment f =>
      (match fst (step f s) with
       | Return _ => ReturnedBuilder true
       | Throw msg => Thrown msg
       end, snd (step f s))
  | Stringify => (ReturnedString (assembled s), Selector.empty)
  end.

Fixpoint session_pure (acts : list action) (s : Selector.t)
  : list observation * Selector.t :=
  match acts with
  | [] => ([], s)
  | a :: rest =>
      let '(o, s') := perform_pure a s in
      let '(os, s'') := session_pure rest s' in
      (o :: os, s'')
  end.

(** ** Tokens *)

Definition token_of (f : fragment) : string :=
  match f with
  | Element v | Id v | Class v | Attr v | PseudoClass v | PseudoElement v => v
  end.

(** The call [f] leaves its category populated: always for class, attr
    and pseudo-class, and for element, id and pseudo-element when the
    token is not the empty string. *)
Definition populating (f : fragment) : bool :=
  negb (singleton (category_of f)) || strict_ne (token_of f) "".

(** A record that [settled k] describes exactly: some populated category
    accounts for the bound [k], unless nothing has been called yet. *)
Definition tight (k : nat) (s : Selector.t) : Prop :=
  k = 0 \/ exists c, populated c s /\ next_rank c = k.

(** The text one fragment contributes to the output: its token behind
    the prefix of its category, or inside brackets; nothing for an id or a
    pseudo-element whose token is the empty string. *)
Definition text_of (f : fragment) : string :=
  match f with
  | Element v => v
  | Id v => if String.eqb v "" then "" else "#" ++ v
  | Class v => "." ++ v
  | Attr v => "[" ++ v ++ "]"
  | PseudoClass v => ":" ++ v
  | PseudoElement v => if String.eqb v "" then "" else "::" ++ v
  end.

(** * Lemmas *)

(** ** The store primitives *)

Section Store.

Variables (h : heap) (this : loc) (s : Selector.t).
Hypothesis Hthis : h !! this = Some s.

Lemma read_eq : read this h = Some (Return s, h).
Proof using Hthis. unfold read. now rewrite Hthis. Qed.

Lemma assign_eq f : assign this f h = Some (Return tt, <[this := f s]> h).
Proof using Hthis. unfold assign. now rewrite Hthis. Qed.

End Store.

Lemma bind_Return {A B : Type} (m : M A) (k : A -> M B) h a h' :
  m h = Some (Return a, h') -> bind m k h = k a h'.
Proof. intros E. unfold bind. now rewrite E. Qed.

Lemma bind_Throw {A B : Type} (m : M A) (k : A -> M B) h msg h' :
  m h = Some (Throw msg, h') -> bind m k h = Some (Throw msg, h').
Proof. intros E. unfold bind. now rewrite E. Qed.

(** [resetData] stores the empty record, whatever was there. *)
Lemma resetData_eq (h : heap) this s :
  h !! this = Some s ->
  Builder.resetData this h = Some (Return tt, <[this := Selector.empty]> h).
Proof.
  intros H. unfold Builder.resetData.
  repeat (erewrite bind_Return;
          [| first [ apply assign_eq; eassumption
                   | apply assign_eq; apply lookup_insert_eq ] ];
          rewrite ?insert_insert_eq).
  erewrite assign_eq by apply lookup_insert_eq.
  now rewrite insert_insert_eq.
Qed.

Lemma reset_then_throw {A : Type} (h : heap) this s msg :
  h !! this = Some s ->
  bind (Builder.resetData this) (fun _ => @throw A msg) h
  = Some (Throw msg, <[this := Selector.empty]> h).
Proof. intros H. now rewrite (bind_Return _ _ _ _ _ (resetData_eq h this s H)). Qed.

(** ** The fragment methods *)

Lemma call_eq (h : heap) this s f :
  h !! this = Some s ->
  call this f h
  = Some (returning this (fst (step f s)), <[this := snd (step f s)]> h).
Proof.
  intros H.
  destruct f as [v|v|v|v|v|v]; cbn [call];
    unfold Builder.element, Builder.id, Builder.class, Builder.attr,
           Builder.pseudoClass, Builder.pseudoElement;
    rewrite (bind_Return _ _ _ _ _ (read_eq h this s H));
    unfold step, duplicate_violation; cbn [category_of order_violation singleton andb populatedb];
    repeat match goal with
           | |- context [if ?b then _ else _] => destruct b
           end;
    cbn [fst snd returning];
    first [ now apply reset_then_throw with (s := s)
          | now rewrite (bind_Return _ _ _ _ _ (assign_eq h this s H _)) ].
Qed.

Lemma populatedb_iff c s : populatedb c s = true <-> populated c s.
Proof.
  destruct c; cbn [populatedb populated]; unfold strict_ne;
    rewrite ?negb_true_iff, ?String.eqb_neq, ?Nat.ltb_lt; try tauto;
    (split; [intros L E; rewrite E in L; cbn in L; lia
            | intros N; match goal with |- 0 < List.length ?l =>
                          destruct l; [congruence | cbn; lia] end]).
Qed.

Lemma order_violation_iff c s : order_violation c s = true <-> later_populated c s.
Proof.
  unfold later_populated. split.
  - destruct c; cbn [order_violation]; rewrite ?orb_true_iff, ?populatedb_iff;
      intros D; decompose [or] D; try discriminate;
      match goal with
      | P : populated ?c' _ |- _ => exists c'; split; [cbn; lia | exact P]
      end.
  - intros (c' & L & P). apply populatedb_iff in P.
    destruct c, c'; cbn in L; try lia; cbn [order_violation];
      rewrite P, ?orb_true_r; reflexivity.
Qed.

Lemma duplicate_violation_iff c s :
  duplicate_violation c s = true <-> singleton c = true /\ populated c s.
Proof. unfold duplicate_violation. now rewrite andb_true_iff, populatedb_iff. Qed.

(** ** Strings and arrays *)

Lemma append_String (x : ascii) (a b : string) : String x a ++ b = String x (a ++ b).
Proof. reflexivity. Qed.

Lemma append_empty_l (a : string) : "" ++ a = a.
Proof. reflexivity. Qed.

Lemma append_assoc (a b c : string) : (a ++ b) ++ c = a ++ (b ++ c).
Proof.
  induction a as [|x a IH]; [reflexivity |].
  now rewrite !append_String, IH.
Qed.

Lemma append_empty_r (a : string) : a ++ "" = a.
Proof.
  induction a as [|x a IH]; [reflexivity |].
  now rewrite append_String, IH.
Qed.

Lemma join_concat sep arr : join sep arr = String.concat sep arr.
Proof.
  induction arr as [|x arr IH]; [reflexivity |].
  destruct arr as [|y rest]; [reflexivity |].
  change (x ++ sep ++ join sep (y :: rest) = x ++ sep ++ String.concat sep (y :: rest)).
  now rewrite IH.
Qed.

Lemma join_empty_cons x arr : join "" (x :: arr) = x ++ join "" arr.
Proof. destruct arr; cbn [join]; [now rewrite append_empty_r | reflexivity]. Qed.

Lemma join_empty_app a b : join "" (a ++ b)%list = join "" a ++ join "" b.
Proof.
  induction a as [|x a IH]; [reflexivity |].
  rewrite <- app_comm_cons, !join_empty_cons, IH. now rewrite append_assoc.
Qed.

Lemma join_empty_push arr x : join "" (push arr x) = join "" arr ++ x.
Proof. unfold push. rewrite join_empty_app. cbn [join]. reflexivity. Qed.

Lemma forEach_push {A B : Type} (f : A -> B) (l : list A) (acc : list B) :
  forEach l (fun arr x => push arr (f x)) acc = (acc ++ map f l)%list.
Proof.
  unfold forEach. revert acc.
  induction l as [|x l IH]; intros acc; cbn [fold_left map].
  - now rewrite app_nil_r.
  - rewrite IH. unfold push. now rewrite <- app_assoc.
Qed.

(** The array the source fills and joins is the assembly rule. *)
Lemma createSelector_assembled s : Builder.createSelector s = assembled s.
Proof.
  unfold Builder.createSelector, assembled.
  unfold element_part, id_part, class_part, attr_part, pseudoClass_part,
    pseudoElement_part, strict_ne.
  destruct s as [e i cs ats ps pe]; cbn [Selector.element Selector.id Selector.class
    Selector.attr Selector.pseudoClass Selector.pseudoElement].
  rewrite forEach_push.
  destruct (String.eqb i ""), cs as [|c cs], ps as [|p ps], (String.eqb pe "");
    cbn [negb List.length Nat.eqb];
    rewrite ?join_empty_push, ?join_empty_app, ?join_empty_push, <- ?join_concat,
      ?append_assoc;
    cbn [join push app]; rewrite ?append_assoc, ?append_empty_r, ?append_empty_l;
    reflexivity.
Qed.

(** ** [stringify] on a builder *)

Lemma stringify_eq (h : heap) this s :
  h !! this = Some s ->
  Builder.stringify this h
  = Some (Return (assembled s), <[this := Selector.empty]> h).
Proof.
  intros H. unfold Builder.stringify.
  rewrite (bind_Return _ _ _ _ _ (read_eq h this s H)).
  rewrite (bind_Return _ _ _ _ _ (resetData_eq h this s H)).
  now rewrite createSelector_assembled.
Qed.

(** ** Ordered chains *)

Lemma populated_add_fragment f s c :
  populated c (add_fragment f s) -> c = category_of f \/ populated c s.
Proof. destruct f, c; cbn; auto. Qed.

Lemma settled_empty k : settled k Selector.empty.
Proof. intros c P. destruct c; cbn in P; congruence. Qed.

Lemma settled_step k f s :
  settled k s -> k <= rank (category_of f) ->
  step f s = (Return tt, add_fragment f s)
  /\ settled (next_rank (category_of f)) (add_fragment f s).
Proof.
  intros S L. split.
  - unfold step.
    destruct (order_violation (category_of f) s) eqn:O.
    { apply order_violation_iff in O. destruct O as (c' & Lc & P).
      specialize (S c' P). destruct (singleton c'); lia. }
    destruct (duplicate_violation (category_of f) s) eqn:D; [|reflexivity].
    apply duplicate_violation_iff in D. destruct D as [Sg P].
    specialize (S _ P). rewrite Sg in S. lia.
  - intros c P. apply populated_add_fragment in P. destruct P as [-> | P].
    + unfold next_rank. destruct (singleton (category_of f)); lia.
    + specialize (S c P). unfold next_rank.
      destruct (singleton c), (singleton (category_of f)); lia.
Qed.

Lemma calls_ordered fs : forall k s (h : heap) this,
  settled k s -> ordered_from k fs = true -> h !! this = Some s ->
  calls this fs h
  = Some (Return this, <[this := fold_left (fun s f => add_fragment f s) fs s]> h).
Proof.
  induction fs as [|f fs IH]; intros k s h this S O H; cbn [calls fold_left].
  - unfold ret. now rewrite insert_id.
  - cbn [ordered_from] in O. apply andb_true_iff in O. destruct O as [L O].
    apply Nat.leb_le in L.
    destruct (settled_step k f s S L) as [E S'].
    erewrite bind_Return by (rewrite (call_eq h this s f H), E; reflexivity).
    cbn [snd].
    rewrite (IH _ _ _ this S' O) by apply lookup_insert_eq.
    now rewrite insert_insert_eq.
Qed.

Lemma or_string_Some v : or_string (Some v) "" = v.
Proof. cbn. destruct (String.eqb_spec v ""); congruence. Qed.

Lemma lookup_fresh (h : heap) : h !! fresh (dom h) = None.
Proof. apply not_elem_of_dom, is_fresh. Qed.

(** A factory call allocates a builder holding exactly its fragment. *)
Lemma create_eq f (h : heap) :
  create f h
  = Some (Return (fresh (dom h)),
          <[fresh (dom h) := add_fragment f Selector.empty]> h).
Proof.
  destruct f; cbn [create];
    unfold cssSelectorBuilder.element, cssSelectorBuilder.id, cssSelectorBuilder.class,
      cssSelectorBuilder.attr, cssSelectorBuilder.pseudoClass,
      cssSelectorBuilder.pseudoElement, Builder.constructor, new;
    cbn [Options.element Options.id Options.class Options.attr
         Options.pseudoClass Options.pseudoElement or_array];
    rewrite ?or_string_Some; reflexivity.
Qed.

Lemma chain_ordered f fs (h : heap) :
  valid_chain (f :: fs) = true ->
  chain f fs h
  = Some (Return (fresh (dom h)), <[fresh (dom h) := collect (f :: fs)]> h).
Proof.
  intros V. unfold valid_chain in V. cbn [ordered_from] in V.
  apply andb_true_iff in V. destruct V as [_ O].
  unfold chain. rewrite (bind_Return _ _ _ _ _ (create_eq f h)).
  destruct (settled_step 0 f Selector.empty (settled_empty 0) (Nat.le_0_l _))
    as [_ S].
  rewrite (calls_ordered fs _ _ _ _ S O) by apply lookup_insert_eq.
  now rewrite insert_insert_eq.
Qed.

(** ** Running a straight-line program

    Each tactic performs the leftmost call of the goal: a factory call, a
    method call on the builder just allocated, or its [stringify]. *)

Lemma bind_bind {A B C : Type} (m : M A) (k : A -> M B) (k' : B -> M C) h :
  bind (bind m k) k' h = bind m (fun a => bind (k a) k') h.
Proof. unfold bind. destruct (m h) as [[[a|msg] h']|]; reflexivity. Qed.

Lemma bind_eq {A B : Type} (m : M A) (k : A -> M B) h o h' :
  m h = Some (o, h') ->
  bind m k h = match o with
               | Return a => k a h'
               | Throw msg => Some (Throw msg, h')
               end.
Proof. intros E. unfold bind. rewrite E. now destruct o. Qed.

Ltac eval_step :=
  repeat match goal with
         | |- context [step ?f ?s] =>
             let r := eval vm_compute in (step f s) in
             change (step f s) with r
         | |- context [add_fragment ?f ?s] =>
             let r := eval vm_compute in (add_fragment f s) in
             change (add_fragment f s) with r
         | |- context [assembled ?s] =>
             let r := eval vm_compute in (assembled s) in
             change (assembled s) with r
         end;
  cbn [fst snd returning].

Ltac run_create f :=
  rewrite ?bind_bind;
  let E := fresh "E" in
  pose proof (fun h => create_eq f h) as E;
  cbn [create] in E;
  rewrite (bind_Return _ _ _ _ _ (E _)); clear E; cbv beta;
  eval_step.

Ltac run_call f :=
  rewrite ?bind_bind;
  let E := fresh "E" in
  pose proof (fun (h : heap) this s =>
                call_eq (<[this := s]> h) this s f (lookup_insert_eq h this s)) as E;
  cbn [call] in E;
  first [ rewrite (bind_eq _ _ _ _ _ (E _ _ _)) | rewrite E ];
  clear E; cbv beta; eval_step; cbv beta iota; rewrite ?insert_insert_eq.

Ltac run_stringify :=
  rewrite ?bind_bind;
  first [ rewrite (bind_Return _ _ _ _ _ (stringify_eq _ _ _ (lookup_insert_eq _ _ _)))
        | rewrite (stringify_eq _ _ _ (lookup_insert_eq _ _ _)) ];
  cbv beta; eval_step; rewrite ?insert_insert_eq.

(** ** Sessions depend on the record alone *)

Lemma perform_eq (h : heap) this s a :
  h !! this = Some s ->
  perform this a h
  = Some (fst (perform_pure a s), <[this := snd (perform_pure a s)]> h).
Proof.
  intros H. destruct a as [f |]; cbn [perform perform_pure fst snd].
  - rewrite (call_eq h this s f H).
    destruct (fst (step f s)); cbn [returning]; [| reflexivity].
    now rewrite Nat.eqb_refl.
  - now rewrite (stringify_eq h this s H).
Qed.

(** A session sees and changes nothing but the builder's own record. *)
Lemma session_eq acts : forall (h : heap) this s,
  h !! this = Some s ->
  session this acts h
  = Some (fst (session_pure acts s), <[this := snd (session_pure acts s)]> h).
Proof.
  induction acts as [| a acts IH]; intros h this s H; cbn [session session_pure].
  - cbn [fst snd]. now rewrite insert_id.
  - rewrite (perform_eq h this s a H).
    destruct (perform_pure a s) as [o s'] eqn:P. cbn [fst snd].
    rewrite (IH _ this s') by apply lookup_insert_eq.
    destruct (session_pure acts s') as [os s'']. cbn [fst snd].
    now rewrite insert_insert_eq.
Qed.

Lemma reset_by_empty (h : heap) this s h' :
  h !! this = Some s -> reset_by this h h' -> h' = <[this := Selector.empty]> h.
Proof.
  intros H [r E | f msg E].
  - rewrite (stringify_eq h this s H) in E. now inversion E.
  - rewrite (call_eq h this s f H) in E. unfold step in E.
    destruct (order_violation (category_of f) s);
      [| destruct (duplicate_violation (category_of f) s)];
      cbn [fst snd returning] in E; now inversion E.
Qed.

(** * Properties *)

(** ** Assembly *)

(** C1. For every valid category-ordered sequence of fragment calls,
    started at the facade in any store, the chain succeeds, the builder
    holds the tokens of the sequence, and [stringify()] returns the
    assembly of that state, as it does of every state a builder can be
    in: the element token unprefixed, ['#'+id] if
    set, the classes prefixed and joined with ['.'] if any, each attr
    wrapped in brackets, the pseudo-classes prefixed and joined with
    [':'] if any, ['::'+pseudoElement] if set, nothing between the
    categories; a token counts as set when it is not the empty string.
    In particular [class('x').class('y').stringify()] returns ['.x.y']. *)
Theorem stringify_assembles_ordered_chain (f : fragment) (fs : list fragment) (h : heap) :
  valid_chain (f :: fs) = true ->
  exists this,
    h !! this = None
    /\ chain f fs h = Some (Return this, <[this := collect (f :: fs)]> h)
    /\ Builder.stringify this (<[this := collect (f :: fs)]> h)
       = Some (Return (assembled (collect (f :: fs))), <[this := Selector.empty]> h)
    /\ (forall (h0 : heap) (b : loc) (s : Selector.t),
          h0 !! b = Some s ->
          Builder.stringify b h0
          = Some (Return (assembled s), <[b := Selector.empty]> h0))
    /\ bind (bind (cssSelectorBuilder.class "x") (fun b => Builder.class b "y"))
            Builder.stringify h
       = Some (Return ".x.y", <[this := Selector.empty]> h).
Proof.
  intros V. exists (fresh (dom h)).
  split; [apply lookup_fresh |].
  split; [now apply chain_ordered |].
  split; [| split].
  - rewrite (stringify_eq _ _ _ (lookup_insert_eq _ _ _)).
    now rewrite insert_insert_eq.
  - intros h0 b s H. now apply stringify_eq.
  - run_create (Class "x"). run_call (Class "y"). run_stringify. reflexivity.
Qed.

Lemma stringify_assembles_ordered_chain_witness :
  valid_chain [Class "x"; Class "y"] = true
  /\ exists this,
      (∅ : heap) !! this = None
      /\ chain (Class "x") [Class "y"] ∅
         = Some (Return this, <[this := collect [Class "x"; Class "y"]]> ∅)
      /\ Builder.stringify this (<[this := collect [Class "x"; Class "y"]]> ∅)
         = Some (Return (assembled (collect [Class "x"; Class "y"])),
                 <[this := Selector.empty]> ∅)
      /\ (forall (h0 : heap) (b : loc) (s : Selector.t),
            h0 !! b = Some s ->
            Builder.stringify b h0
            = Some (Return (assembled s), <[b := Selector.empty]> h0))
      /\ bind (bind (cssSelectorBuilder.class "x") (fun b => Builder.class b "y"))
              Builder.stringify ∅
         = Some (Return ".x.y", <[this := Selector.empty]> ∅).
Proof.
  split; [reflexivity |].
  apply (stringify_assembles_ordered_chain (Class "x") [Class "y"] ∅).
  reflexivity.
Defined.

(** ** Errors *)

(** C2. A fragment method of an earlier category, called on a builder in
    which some later category is populated, throws the order error, whose
    message names the order element, id, class, attribute, pseudo-class,
    pseudo-element; in particular [id('main').element('div')] throws it. *)
Theorem earlier_after_later_throws_order (h : heap) (this : loc) (s : Selector.t)
    (f : fragment) :
  h !! this = Some s ->
  later_populated (category_of f) s ->
  call this f h = Some (Throw order_message, <[this := Selector.empty]> h)
  /\ contains "element, id, class, attribute, pseudo-class, pseudo-element"
              order_message = true
  /\ forall h0 : heap,
      bind (cssSelectorBuilder.id "main") (fun b => Builder.element b "div") h0
      = Some (Throw order_message, <[fresh (dom h0) := Selector.empty]> h0).
Proof.
  intros H L. split; [| split].
  - rewrite (call_eq h this s f H). unfold step.
    apply order_violation_iff in L. now rewrite L.
  - reflexivity.
  - intros h0. run_create (Id "main"). run_call (Element "div"). reflexivity.
Qed.

Lemma earlier_after_later_throws_order_witness :
  call 0 (Class "c") ({[ 0 := Selector.mk "" "" [] [] ["hover"] "" ]} : heap)
  = Some (Throw order_message,
          <[0 := Selector.empty]>
            ({[ 0 := Selector.mk "" "" [] [] ["hover"] "" ]} : heap)).
Proof.
  refine (proj1 (earlier_after_later_throws_order
                   ({[ 0 := Selector.mk "" "" [] [] ["hover"] "" ]} : heap) 0
                   (Selector.mk "" "" [] [] ["hover"] "") (Class "c") _ _)).
  - reflexivity.
  - exists CPseudoClass. split; [cbn; lia | cbn; discriminate].
Defined.

(** C3. Setting element, id or pseudo-element when that category already
    holds a token and no later category is populated throws the duplicate
    error, whose message says that element, id and pseudo-element occur at
    most once; in particular [id('a').id('b')] throws it. *)
Theorem singleton_twice_throws_duplicate (h : heap) (this : loc) (s : Selector.t)
    (f : fragment) :
  h !! this = Some s ->
  singleton (category_of f) = true ->
  populated (category_of f) s ->
  ~ later_populated (category_of f) s ->
  call this f h = Some (Throw duplicate_message, <[this := Selector.empty]> h)
  /\ contains "Element, id and pseudo-element should not occur more then one time"
              duplicate_message = true
  /\ forall h0 : heap,
      bind (cssSelectorBuilder.id "a") (fun b => Builder.id b "b") h0
      = Some (Throw duplicate_message, <[fresh (dom h0) := Selector.empty]> h0).
Proof.
  intros H Sg P NL. split; [| split].
  - rewrite (call_eq h this s f H). unfold step.
    destruct (order_violation (category_of f) s) eqn:O.
    { now apply order_violation_iff in O. }
    assert (duplicate_violation (category_of f) s = true) as ->
        by now apply duplicate_violation_iff.
    reflexivity.
  - reflexivity.
  - intros h0. run_create (Id "a"). run_call (Id "b"). reflexivity.
Qed.

Lemma singleton_twice_throws_duplicate_witness :
  call 0 (PseudoElement "before")
       ({[ 0 := Selector.mk "div" "" [] [] [] "after" ]} : heap)
  = Some (Throw duplicate_message,
          <[0 := Selector.empty]>
            ({[ 0 := Selector.mk "div" "" [] [] [] "after" ]} : heap)).
Proof.
  refine (proj1 (singleton_twice_throws_duplicate
                   ({[ 0 := Selector.mk "div" "" [] [] [] "after" ]} : heap) 0
                   (Selector.mk "div" "" [] [] [] "after")
                   (PseudoElement "before") _ _ _ _)).
  - reflexivity.
  - reflexivity.
  - cbn. discriminate.
  - intros (c & L & _). destruct c; cbn in L; lia.
Defined.

(** C4. Whenever a fragment call throws, the error is one of the two
    above and the store at the throw holds the empty record for the
    builder: no element, id, class, attr, pseudo-class or pseudo-element
    from before the failure; nothing else in the store has changed. *)
Theorem failed_call_resets (h : heap) (this : loc) (s : Selector.t) (f : fragment)
    (msg : string) (h' : heap) :
  h !! this = Some s ->
  call this f h = Some (Throw msg, h') ->
  (msg = order_message \/ msg = duplicate_message)
  /\ h' !! this = Some (Selector.mk "" "" [] [] [] "")
  /\ h' = <[this := Selector.empty]> h.
Proof.
  intros H C. rewrite (call_eq h this s f H) in C. unfold step in C.
  destruct (order_violation (category_of f) s);
    [| destruct (duplicate_violation (category_of f) s)];
    cbn [fst snd returning] in C; inversion C; subst;
    rewrite lookup_insert_eq; auto.
Qed.

Lemma failed_call_resets_witness :
  (order_message = order_message \/ order_message = duplicate_message)
  /\ ({[ 0 := Selector.empty ]} : heap) !! 0 = Some (Selector.mk "" "" [] [] [] "")
  /\ ({[ 0 := Selector.empty ]} : heap)
     = <[0 := Selector.empty]>
         ({[ 0 := Selector.mk "" "main" ["c"] [] [] "" ]} : heap).
Proof.
  apply (failed_call_resets
           ({[ 0 := Selector.mk "" "main" ["c"] [] [] "" ]} : heap) 0
           (Selector.mk "" "main" ["c"] [] [] "") (Element "div") order_message
           ({[ 0 := Selector.empty ]} : heap)).
  - reflexivity.
  - reflexivity.
Defined.

(** ** Reset by [stringify] *)

(** C5. [stringify()] returns and leaves the builder's record empty, and
    a second [stringify()] on the same builder, with no fragment added in
    between, returns the empty string. *)
Theorem stringify_twice_is_empty (h : heap) (this : loc) (s : Selector.t) :
  h !! this = Some s ->
  exists h',
    Builder.stringify this h = Some (Return (Builder.createSelector s), h')
    /\ h' !! this = Some Selector.empty
    /\ Builder.stringify this h' = Some (Return "", h')
    /\ bind (Builder.stringify this) (fun _ => Builder.stringify this) h
       = Some (Return "", h').
Proof.
  intros H. exists (<[this := Selector.empty]> h).
  assert (Builder.stringify this (<[this := Selector.empty]> h)
          = Some (Return "", <[this := Selector.empty]> h)) as E2.
  { rewrite (stringify_eq _ _ _ (lookup_insert_eq _ _ _)).
    now rewrite insert_insert_eq. }
  repeat split.
  - rewrite createSelector_assembled. now apply stringify_eq.
  - apply lookup_insert_eq.
  - exact E2.
  - now rewrite (bind_Return _ _ _ _ _ (stringify_eq h this s H)).
Qed.

Lemma stringify_twice_is_empty_witness :
  exists h',
    Builder.stringify 0 ({[ 0 := Selector.mk "a" "x" ["b"; "c"] [] ["focus"] "" ]} : heap)
    = Some (Return "a#x.b.c:focus", h')
    /\ h' !! 0 = Some Selector.empty
    /\ Builder.stringify 0 h' = Some (Return "", h')
    /\ bind (Builder.stringify 0) (fun _ => Builder.stringify 0)
            ({[ 0 := Selector.mk "a" "x" ["b"; "c"] [] ["focus"] "" ]} : heap)
       = Some (Return "", h').
Proof.
  apply (stringify_twice_is_empty
           ({[ 0 := Selector.mk "a" "x" ["b"; "c"] [] ["focus"] "" ]} : heap) 0
           (Selector.mk "a" "x" ["b"; "c"] [] ["focus"] "")).
  reflexivity.
Defined.

(** ** [combine] *)

Lemma stringify_live (h : heap) x :
  live h x ->
  exists r h',
    stringify x h = Some (Return r, h')
    /\ (forall b, x = ABuilder b -> h' = <[b := Selector.empty]> h)
    /\ (forall r0, x = AComposite r0 -> h' = h)
    /\ (forall y, live h y -> live h' y).
Proof.
  destruct x as [b | r0]; cbn [live stringify].
  - intros [s H]. exists (assembled s), (<[b := Selector.empty]> h).
    split; [now apply stringify_eq |].
    split; [intros b' [= <-]; reflexivity |].
    split; [discriminate |].
    intros [b' | ?]; cbn [live]; [| trivial].
    destruct (decide (b = b')) as [<- | N].
    + rewrite lookup_insert_eq. eauto.
    + now rewrite lookup_insert_ne.
  - intros _. exists r0, h. repeat split; try discriminate; auto.
Qed.

(** C6. For operands that denote objects of the store, [combine(left, c,
    right)] calls [stringify()] on [left], then on [right], and returns a
    composite whose [stringify()] returns the left string, one space,
    [c], one space, the right string, whatever [c] is (three spaces in a
    row when [c] is the space); operand builders are left reset, and the
    right string is that of [right] before the call when [right] is not
    the object [left].  In particular
    [combine(element('div').id('main'), '+', element('table').id('data'))
    .stringify()] returns ['div#main + table#data']. *)
Theorem combine_pads_with_single_spaces (h : heap) (left : stringifiable)
    (c : string) (right : stringifiable) :
  live h left -> live h right ->
  exists sl h1 sr h2,
    stringify left h = Some (Return sl, h1)
    /\ stringify right h1 = Some (Return sr, h2)
    /\ cssSelectorBuilder.combine left c right h
       = Some (Return (AComposite (sl ++ " " ++ c ++ " " ++ sr)), h2)
    /\ bind (cssSelectorBuilder.combine left c right) stringify h
       = Some (Return (sl ++ " " ++ c ++ " " ++ sr), h2)
    /\ (c = " " -> sl ++ " " ++ c ++ " " ++ sr = sl ++ "   " ++ sr)
    /\ (forall b, left = ABuilder b \/ right = ABuilder b ->
                  h2 !! b = Some Selector.empty)
    /\ (left <> right -> exists h2', stringify right h = Some (Return sr, h2'))
    /\ bind (bind (cssSelectorBuilder.element "div") (fun l =>
             bind (Builder.id l "main") (fun l =>
             bind (cssSelectorBuilder.element "table") (fun r =>
             bind (Builder.id r "data") (fun r =>
             cssSelectorBuilder.combine (ABuilder l) "+" (ABuilder r))))))
            stringify ∅
       = Some (Return "div#main + table#data",
               {[ 0 := Selector.empty; 1 := Selector.empty ]}).
Proof.
  intros Ll Lr.
  destruct (stringify_live h left Ll) as (sl & h1 & El & Bl & Cl & Pl).
  destruct (stringify_live h1 right (Pl _ Lr)) as (sr & h2 & Er & Br & Cr & Pr).
  exists sl, h1, sr, h2.
  assert (cssSelectorBuilder.combine left c right h
          = Some (Return (AComposite (sl ++ " " ++ c ++ " " ++ sr)), h2)) as Ec.
  { unfold cssSelectorBuilder.combine.
    rewrite (bind_Return _ _ _ _ _ El), (bind_Return _ _ _ _ _ Er).
    reflexivity. }
  split; [exact El |]. split; [exact Er |]. split; [exact Ec |].
  split; [now rewrite (bind_Return _ _ _ _ _ Ec) |].
  split; [now intros -> |].
  split; [| split].
  - intros b [-> | ->].
    + rewrite (Bl b eq_refl) in *.
      destruct right as [b' | r0].
      * rewrite (Br b' eq_refl).
        destruct (decide (b' = b)) as [-> | N];
          [apply lookup_insert_eq | rewrite lookup_insert_ne by exact N;
                                     apply lookup_insert_eq].
      * rewrite (Cr r0 eq_refl). apply lookup_insert_eq.
    + rewrite (Br b eq_refl). apply lookup_insert_eq.
  - intros N. destruct right as [b' | r0].
    + destruct left as [b | r1].
      * assert (b <> b') as Nb by congruence.
        rewrite (Bl b eq_refl) in Er.
        destruct Lr as [s' Hs']. cbn [stringify] in *.
        rewrite (stringify_eq _ _ s') in Er by now rewrite lookup_insert_ne.
        inversion Er; subst. eexists. now apply stringify_eq.
      * rewrite (Cl r1 eq_refl) in Er. eauto.
    + cbn [stringify] in *. unfold ret in *. inversion Er; subst. eauto.
  - vm_compute. reflexivity.
Qed.

Lemma combine_pads_with_single_spaces_witness :
  exists sl h1 sr h2,
    stringify (ABuilder 0)
              ({[ 0 := Selector.mk "tr" "" [] [] ["nth-of-type(even)"] "" ]} : heap)
    = Some (Return sl, h1)
    /\ stringify (AComposite "td") h1 = Some (Return sr, h2)
    /\ cssSelectorBuilder.combine (ABuilder 0) " " (AComposite "td")
         ({[ 0 := Selector.mk "tr" "" [] [] ["nth-of-type(even)"] "" ]} : heap)
       = Some (Return (AComposite (sl ++ " " ++ " " ++ " " ++ sr)), h2).
Proof.
  destruct (combine_pads_with_single_spaces
              ({[ 0 := Selector.mk "tr" "" [] [] ["nth-of-type(even)"] "" ]} : heap)
              (ABuilder 0) " " (AComposite "td"))
    as (sl & h1 & sr & h2 & El & Er & Ec & _).
  - cbn. rewrite lookup_singleton_eq. eauto.
  - exact I.
  - exists sl, h1, sr, h2. auto.
Defined.

(** C7. The value [combine] returns holds the string computed once:
    however many times its [stringify()] is called, in whatever store,
    each call returns that same string and the store, operand builders
    included, is left as it was. *)
Theorem composite_stringify_is_constant (h : heap) (left : stringifiable) (c : string)
    (right : stringifiable) (x : stringifiable) (h' : heap) :
  cssSelectorBuilder.combine left c right h = Some (Return x, h') ->
  exists result,
    x = AComposite result
    /\ forall (n : nat) (h'' : heap),
        stringify_times x n h'' = Some (Return (repeat result n), h'').
Proof.
  intros C. unfold cssSelectorBuilder.combine, bind in C.
  destruct (stringify left h) as [[[sl | ?] h1] |]; try discriminate.
  destruct (stringify right h1) as [[[sr | ?] h2] |]; try discriminate.
  unfold ret in C. inversion C; subst.
  eexists; split; [reflexivity |].
  induction n as [| n IH]; intros h''; [reflexivity |].
  cbn [stringify_times repeat].
  rewrite (bind_Return _ _ h'' _ h'' eq_refl).
  now rewrite (bind_Return _ _ _ _ _ (IH h'')).
Qed.

Lemma composite_stringify_is_constant_witness :
  exists result,
    AComposite "p > a" = AComposite result
    /\ forall (n : nat) (h'' : heap),
        stringify_times (AComposite "p > a") n h''
        = Some (Return (repeat result n), h'').
Proof.
  apply (composite_stringify_is_constant
           ({[ 0 := Selector.mk "p" "" [] [] [] "" ]} : heap)
           (ABuilder 0) ">" (AComposite "a")
           (AComposite "p > a")
           ({[ 0 := Selector.empty ]} : heap)).
  vm_compute. reflexivity.
Defined.

(** ** A full chain *)

(** C8. [element('a').id('x').class('b').class('c').attr('href$=".png"')
    .pseudoClass('focus').pseudoElement('before').stringify()] returns
    ['a#x.b.c[href$=".png"]:focus::before'], in every store. *)
Theorem full_chain_stringify :
  forall h : heap,
    bind (cssSelectorBuilder.element "a") (fun b =>
    bind (Builder.id b "x") (fun b =>
    bind (Builder.class b "b") (fun b =>
    bind (Builder.class b "c") (fun b =>
    bind (Builder.attr b ("href$=" ++ dquote ++ ".png" ++ dquote)) (fun b =>
    bind (Builder.pseudoClass b "focus") (fun b =>
    bind (Builder.pseudoElement b "before") (fun b =>
    Builder.stringify b))))))) h
    = Some (Return ("a#x.b.c[href$=" ++ dquote ++ ".png" ++ dquote ++ "]:focus::before"),
            <[fresh (dom h) := Selector.empty]> h).
Proof.
  intros h.
  run_create (Element "a").
  run_call (Id "x").
  run_call (Class "b").
  run_call (Class "c").
  run_call (Attr ("href$=" ++ dquote ++ ".png" ++ dquote)).
  run_call (PseudoClass "focus").
  run_call (PseudoElement "before").
  run_stringify.
  reflexivity.
Qed.

(** ** The empty string as the unset token *)

(** C9. For element, id and pseudo-element, the call throws the
    duplicate error exactly when the token the builder stores for that
    category is not the empty string (and no later category is populated,
    which throws the order error first); when the stored token is the
    empty string and no later category is populated the call succeeds and
    stores its argument.  In particular [element('').element('x')]
    succeeds. *)
Theorem empty_token_is_unset (h : heap) (this : loc) (s : Selector.t) (f : fragment)
    (stored : string) :
  h !! this = Some s ->
  stored_token (category_of f) s = Some stored ->
  (call this f h = Some (Throw duplicate_message, <[this := Selector.empty]> h)
   <-> stored <> "" /\ ~ later_populated (category_of f) s)
  /\ (stored = "" -> ~ later_populated (category_of f) s ->
      call this f h = Some (Return this, <[this := add_fragment f s]> h))
  /\ forall h0 : heap,
      bind (cssSelectorBuilder.element "") (fun b => Builder.element b "x") h0
      = Some (Return (fresh (dom h0)),
              <[fresh (dom h0) := Selector.mk "x" "" [] [] [] ""]> h0).
Proof.
  intros H T.
  assert (singleton (category_of f) = true
          /\ (populated (category_of f) s <-> stored <> "")) as [Sg Pi].
  { destruct f; cbn in T |- *; try discriminate; inversion T; subst; tauto. }
  rewrite (call_eq h this s f H). unfold step.
  destruct (order_violation (category_of f) s) eqn:O.
  - apply order_violation_iff in O. cbn [fst snd returning].
    split; [| split].
    + split; [intros E; inversion E | tauto].
    + tauto.
    + intros h0. run_create (Element ""). run_call (Element "x"). reflexivity.
  - assert (~ later_populated (category_of f) s) as NL.
    { intros L. apply order_violation_iff in L. congruence. }
    destruct (duplicate_violation (category_of f) s) eqn:D; cbn [fst snd returning].
    + apply duplicate_violation_iff in D. destruct D as [_ P].
      split; [| split].
      * split; [intros _; split; [now apply Pi | exact NL] | reflexivity].
      * intros E. apply Pi in P. contradiction.
      * intros h0. run_create (Element ""). run_call (Element "x"). reflexivity.
    + assert (~ populated (category_of f) s) as NP.
      { intros P. assert (duplicate_violation (category_of f) s = true)
          by now apply duplicate_violation_iff. congruence. }
      split; [| split].
      * split; [intros E; inversion E | intros [N _]; apply Pi in N; contradiction].
      * reflexivity.
      * intros h0. run_create (Element ""). run_call (Element "x"). reflexivity.
Qed.

Lemma empty_token_is_unset_witness :
  call 0 (Id "main") ({[ 0 := Selector.mk "div" "" [] [] [] "" ]} : heap)
  = Some (Return 0,
          <[0 := add_fragment (Id "main") (Selector.mk "div" "" [] [] [] "")]>
            ({[ 0 := Selector.mk "div" "" [] [] [] "" ]} : heap)).
Proof.
  refine (proj1 (proj2 (empty_token_is_unset
                          ({[ 0 := Selector.mk "div" "" [] [] [] "" ]} : heap)
                          0 (Selector.mk "div" "" [] [] [] "") (Id "main") ""
                          _ _)) _ _).
  - reflexivity.
  - reflexivity.
  - reflexivity.
  - intros (c & L & P). destruct c; cbn in L, P; try lia; congruence.
Defined.

(** ** A reset builder is a fresh builder *)

(** C10. After a reset, by [stringify()] or by a failed fragment call,
    a builder behaves as a builder just constructed with no option does:
    every session of fragment calls and [stringify()] calls returns and
    throws the same on both and leaves both with the same record; and the
    next [stringify()] after a valid chain of fragment calls returns the
    assembly of those fragments alone. *)
Theorem reset_builder_is_fresh (h : heap) (this : loc) (s : Selector.t) (h' : heap)
    (h0 : heap) :
  h !! this = Some s ->
  reset_by this h h' ->
  exists (new_builder : loc) (h0' : heap),
    Builder.constructor Options.none h0 = Some (Return new_builder, h0')
    /\ h' !! this = h0' !! new_builder
    /\ (forall acts : list action,
         exists os h1 h2,
           session this acts h' = Some (os, h1)
           /\ session new_builder acts h0' = Some (os, h2)
           /\ h1 !! this = h2 !! new_builder)
    /\ (forall fs : list fragment,
         valid_chain fs = true ->
         bind (calls this fs) Builder.stringify h'
         = Some (Return (assembled (collect fs)), h')).
Proof.
  intros H R. apply (reset_by_empty h this s h' H) in R. subst h'.
  exists (fresh (dom h0)), (<[fresh (dom h0) := Selector.empty]> h0).
  split; [reflexivity |].
  split; [now rewrite !lookup_insert_eq |].
  split.
  - intros acts.
    eexists _, _, _. split; [| split].
    + apply session_eq, lookup_insert_eq.
    + apply session_eq, lookup_insert_eq.
    + now rewrite !lookup_insert_eq.
  - intros fs V.
    rewrite (bind_Return _ _ _ _ _
               (calls_ordered fs 0 Selector.empty _ this (settled_empty 0) V
                              (lookup_insert_eq _ _ _))).
    rewrite (stringify_eq _ _ _ (lookup_insert_eq _ _ _)).
    now rewrite !insert_insert_eq.
Qed.

Lemma reset_builder_is_fresh_witness :
  exists (new_builder : loc) (h0' : heap),
    Builder.constructor Options.none ∅ = Some (Return new_builder, h0')
    /\ ({[ 0 := Selector.empty ]} : heap) !! 0 = h0' !! new_builder
    /\ (forall acts : list action,
         exists os h1 h2,
           session 0 acts {[ 0 := Selector.empty ]} = Some (os, h1)
           /\ session new_builder acts h0' = Some (os, h2)
           /\ h1 !! 0 = h2 !! new_builder)
    /\ (forall fs : list fragment,
         valid_chain fs = true ->
         bind (calls 0 fs) Builder.stringify {[ 0 := Selector.empty ]}
         = Some (Return (assembled (collect fs)), {[ 0 := Selector.empty ]})).
Proof.
  apply (reset_builder_is_fresh
           ({[ 0 := Selector.mk "" "main" [] [] [] "" ]} : heap) 0
           (Selector.mk "" "main" [] [] [] "")
           ({[ 0 := Selector.empty ]} : heap) ∅).
  - reflexivity.
  - apply (reset_by_failure _ _ _ (Element "div") order_message).
    vm_compute. reflexivity.
Defined.

(** * Further properties of the builder *)

(** ** The facade *)

(** X1. A factory call never throws: it allocates a builder that was not
    in the store, holding its one fragment (nothing at all when the token
    of element, id or pseudo-element is the empty string), and leaves
    every builder of the store as it was. *)
Theorem factory_allocates_fresh_builder (f : fragment) (h : heap) :
  exists this,
    h !! this = None
    /\ create f h = Some (Return this, <[this := add_fragment f Selector.empty]> h)
    /\ (forall b s, h !! b = Some s ->
                    (<[this := add_fragment f Selector.empty]> h) !! b = Some s)
    /\ (singleton (category_of f) = true -> token_of f = "" ->
        add_fragment f Selector.empty = Selector.empty)
    /\ (populating f = true ->
        populated (category_of f) (add_fragment f Selector.empty)).
Proof.
  exists (fresh (dom h)).
  split; [apply lookup_fresh |].
  split; [apply create_eq |].
  split; [| split].
  - intros b s H. rewrite lookup_insert_ne; [exact H |].
    intros <-. rewrite lookup_fresh in H. discriminate.
  - destruct f; cbn; intros; subst; try discriminate; reflexivity.
  - unfold populating, strict_ne.
    destruct f; cbn; rewrite ?negb_true_iff, ?String.eqb_neq;
      first [ intros N; exact N | intros _; discriminate ].
Qed.

(** ** Calls on one builder *)

(** X2. Whatever fragment calls and [stringify] calls are made on a
    builder, and whether they return or throw, every call completes, no
    builder is created or lost, and every other builder of the store
    keeps its record. *)
Theorem session_touches_only_this (h : heap) (this : loc) (s : Selector.t)
    (acts : list action) :
  h !! this = Some s ->
  exists os h',
    session this acts h = Some (os, h')
    /\ List.length os = List.length acts
    /\ dom h' = dom h
    /\ forall b, b <> this -> h' !! b = h !! b.
Proof.
  intros H. rewrite (session_eq acts h this s H).
  eexists _, _. split; [reflexivity |].
  split; [| split].
  - clear H. revert s. induction acts as [| a acts IH]; intros s; [reflexivity |].
    cbn [session_pure]. destruct (perform_pure a s) as [o s'].
    specialize (IH s'). destruct (session_pure acts s') as [os s''].
    cbn [fst] in *. cbn [List.length]. now rewrite IH.
  - apply dom_insert_lookup_L. eauto.
  - intros b N. now rewrite lookup_insert_ne.
Qed.

Lemma session_touches_only_this_witness :
  exists os h',
    session 0 [Fragment (Id "a"); Fragment (Element "p"); Stringify]
            ({[ 0 := Selector.empty; 1 := Selector.mk "td" "" [] [] [] "" ]} : heap)
    = Some (os, h')
    /\ List.length os = 3
    /\ dom h' = dom ({[ 0 := Selector.empty; 1 := Selector.mk "td" "" [] [] [] "" ]} : heap)
    /\ forall b, b <> 0 ->
                 h' !! b
                 = ({[ 0 := Selector.empty; 1 := Selector.mk "td" "" [] [] [] "" ]} : heap) !! b.
Proof.
  apply (session_touches_only_this
           ({[ 0 := Selector.empty; 1 := Selector.mk "td" "" [] [] [] "" ]} : heap)
           0 Selector.empty
           [Fragment (Id "a"); Fragment (Element "p"); Stringify]).
  reflexivity.
Defined.

Lemma step_cases f s :
  (later_populated (category_of f) s
   /\ step f s = (Throw order_message, Selector.empty))
  \/ (~ later_populated (category_of f) s
      /\ singleton (category_of f) = true /\ populated (category_of f) s
      /\ step f s = (Throw duplicate_message, Selector.empty))
  \/ (~ later_populated (category_of f) s
      /\ ~ (singleton (category_of f) = true /\ populated (category_of f) s)
      /\ step f s = (Return tt, add_fragment f s)).
Proof.
  unfold step.
  destruct (order_violation (category_of f) s) eqn:O.
  { left. split; [now apply order_violation_iff | reflexivity]. }
  assert (~ later_populated (category_of f) s) as NL.
  { intros L. apply order_violation_iff in L. congruence. }
  destruct (duplicate_violation (category_of f) s) eqn:D.
  - right; left. apply duplicate_violation_iff in D. tauto.
  - right; right. split; [exact NL |]. split; [| reflexivity].
    intros SP. apply duplicate_violation_iff in SP. congruence.
Qed.

Lemma call_succeeds (h : heap) this s f :
  h !! this = Some s ->
  ~ later_populated (category_of f) s ->
  ~ (singleton (category_of f) = true /\ populated (category_of f) s) ->
  call this f h = Some (Return this, <[this := add_fragment f s]> h).
Proof.
  intros H NL NSP. rewrite (call_eq h this s f H).
  destruct (step_cases f s) as [[L _] | [(_ & Sg & P & _) | (_ & _ & ->)]];
    [contradiction | tauto | reflexivity].
Qed.

Lemma call_throws_order (h : heap) this s f :
  h !! this = Some s ->
  later_populated (category_of f) s ->
  call this f h = Some (Throw order_message, <[this := Selector.empty]> h).
Proof.
  intros H L. rewrite (call_eq h this s f H).
  destruct (step_cases f s) as [[_ ->] | [(NL & _) | (NL & _)]];
    [reflexivity | contradiction | contradiction].
Qed.

(** X3. A fragment call has exactly three outcomes, each decided by the
    record alone: it throws the order error exactly when a later category
    is populated; it throws the duplicate error exactly when no later
    category is populated and the call is element, id or pseudo-element
    with its category populated; otherwise, and only then, it returns
    [this] with the fragment added.  So class, attr and pseudo-class
    never throw the duplicate error. *)
Theorem call_outcome_characterised (h : heap) (this : loc) (s : Selector.t)
    (f : fragment) :
  h !! this = Some s ->
  (call this f h = Some (Throw order_message, <[this := Selector.empty]> h)
   <-> later_populated (category_of f) s)
  /\ (call this f h = Some (Throw duplicate_message, <[this := Selector.empty]> h)
      <-> ~ later_populated (category_of f) s
          /\ singleton (category_of f) = true /\ populated (category_of f) s)
  /\ (call this f h = Some (Return this, <[this := add_fragment f s]> h)
      <-> ~ later_populated (category_of f) s
          /\ ~ (singleton (category_of f) = true /\ populated (category_of f) s))
  /\ (singleton (category_of f) = false ->
      forall h', call this f h <> Some (Throw duplicate_message, h')).
Proof.
  intros H. rewrite (call_eq h this s f H).
  destruct (step_cases f s) as [[L ->] | [(NL & Sg & P & ->) | (NL & NSP & ->)]];
    cbn [fst snd returning]; repeat split;
    try (intros E; inversion E; fail);
    try tauto;
    try (intros Sg' h' E; inversion E; congruence);
    try (match goal with E : Some _ = Some _ |- _ => now inversion E end).
Qed.

Lemma call_outcome_characterised_witness :
  call 0 (Attr "x") ({[ 0 := Selector.mk "a" "" ["b"] ["y"] [] "" ]} : heap)
  = Some (Return 0,
          <[0 := add_fragment (Attr "x") (Selector.mk "a" "" ["b"] ["y"] [] "")]>
            ({[ 0 := Selector.mk "a" "" ["b"] ["y"] [] "" ]} : heap)).
Proof.
  refine (proj2 (proj1 (proj2 (proj2
            (call_outcome_characterised
               ({[ 0 := Selector.mk "a" "" ["b"] ["y"] [] "" ]} : heap) 0
               (Selector.mk "a" "" ["b"] ["y"] [] "") (Attr "x") _)))) _).
  - reflexivity.
  - split.
    + intros (c & L & P). destruct c; cbn in L, P; try lia; congruence.
    + intros [Sg _]. discriminate.
Defined.

(** X4. The token is never examined: two calls of the same method on the
    same builder, whatever their tokens, both return or both throw the
    same error. *)
Theorem token_never_validated (h : heap) (this : loc) (s : Selector.t)
    (f g : fragment) :
  h !! this = Some s ->
  category_of f = category_of g ->
  (forall msg h', call this f h = Some (Throw msg, h')
                  <-> call this g h = Some (Throw msg, h'))
  /\ ((exists h', call this f h = Some (Return this, h'))
      <-> (exists h', call this g h = Some (Return this, h'))).
Proof.
  intros H E. rewrite (call_eq h this s f H), (call_eq h this s g H).
  unfold step. rewrite E.
  destruct (order_violation (category_of g) s);
    [| destruct (duplicate_violation (category_of g) s)];
    cbn [fst snd returning];
    (split;
     [ intros msg h'; split; intros X; first [exact X | now inversion X]
     | split; intros [h' X]; first [now inversion X | eexists; reflexivity] ]).
Qed.

Lemma token_never_validated_witness :
  (forall msg h',
      call 0 (Id "a b c") ({[ 0 := Selector.mk "" "x" [] [] [] "" ]} : heap)
      = Some (Throw msg, h')
      <-> call 0 (Id "#!") ({[ 0 := Selector.mk "" "x" [] [] [] "" ]} : heap)
          = Some (Throw msg, h'))
  /\ ((exists h', call 0 (Id "a b c") ({[ 0 := Selector.mk "" "x" [] [] [] "" ]} : heap)
                  = Some (Return 0, h'))
      <-> (exists h', call 0 (Id "#!") ({[ 0 := Selector.mk "" "x" [] [] [] "" ]} : heap)
                      = Some (Return 0, h'))).
Proof.
  apply (token_never_validated
           ({[ 0 := Selector.mk "" "x" [] [] [] "" ]} : heap) 0
           (Selector.mk "" "x" [] [] [] "") (Id "a b c") (Id "#!")).
  - reflexivity.
  - reflexivity.
Defined.

(** X5. Calling element, id or pseudo-element with the empty string on a
    builder whose category is unset and that has no later category
    populated returns [this] and changes nothing: the call leaves no
    trace, so the category can still be set afterwards. *)
Theorem empty_singleton_token_is_noop (h : heap) (this : loc) (s : Selector.t)
    (f g : fragment) :
  h !! this = Some s ->
  singleton (category_of f) = true ->
  token_of f = "" ->
  ~ populated (category_of f) s ->
  ~ later_populated (category_of f) s ->
  category_of g = category_of f ->
  call this f h = Some (Return this, h)
  /\ bind (call this f) (fun b => call b g) h
     = Some (Return this, <[this := add_fragment g s]> h).
Proof.
  intros H Sg T NP NL Eg.
  assert (add_fragment f s = s) as Es.
  { destruct s as [e i cs ats ps pe].
    destruct f as [v | v | v | v | v | v]; cbn in Sg, T, NP |- *;
      try discriminate; subst v;
      [ destruct (String.eqb_spec e "") as [-> | N]
      | destruct (String.eqb_spec i "") as [-> | N]
      | destruct (String.eqb_spec pe "") as [-> | N] ];
      first [reflexivity | contradiction]. }
  assert (call this f h = Some (Return this, h)) as Ef.
  { rewrite (call_succeeds h this s f H NL) by tauto.
    rewrite Es. now rewrite insert_id. }
  split; [exact Ef |].
  rewrite (bind_Return _ _ _ _ _ Ef).
  apply (call_succeeds h this s g H); rewrite Eg; tauto.
Qed.

Lemma empty_singleton_token_is_noop_witness :
  call 0 (Id "") ({[ 0 := Selector.mk "div" "" [] [] [] "" ]} : heap)
  = Some (Return 0, ({[ 0 := Selector.mk "div" "" [] [] [] "" ]} : heap))
  /\ bind (call 0 (Id "")) (fun b => call b (Id "main"))
          ({[ 0 := Selector.mk "div" "" [] [] [] "" ]} : heap)
     = Some (Return 0,
             <[0 := add_fragment (Id "main") (Selector.mk "div" "" [] [] [] "")]>
               ({[ 0 := Selector.mk "div" "" [] [] [] "" ]} : heap)).
Proof.
  apply (empty_singleton_token_is_noop
           ({[ 0 := Selector.mk "div" "" [] [] [] "" ]} : heap) 0
           (Selector.mk "div" "" [] [] [] "") (Id "") (Id "main")).
  - reflexivity.
  - reflexivity.
  - reflexivity.
  - intros P. now apply P.
  - intros (c & L & P). destruct c; cbn in L, P; try lia; congruence.
  - reflexivity.
Defined.

(** X6. Once a call has populated its category (any class, attr or
    pseudo-class call; an element, id or pseudo-element call with a
    token other than the empty string), every call of an earlier
    category throws the order error and leaves the builder empty. *)
Theorem populating_call_blocks_earlier (h : heap) (this : loc) (s : Selector.t)
    (f g : fragment) :
  h !! this = Some s ->
  ~ later_populated (category_of f) s ->
  ~ (singleton (category_of f) = true /\ populated (category_of f) s) ->
  populating f = true ->
  rank (category_of g) < rank (category_of f) ->
  bind (call this f) (fun b => call b g) h
  = Some (Throw order_message, <[this := Selector.empty]> h).
Proof.
  intros H NL NSP Pf R.
  rewrite (bind_Return _ _ _ _ _ (call_succeeds h this s f H NL NSP)).
  rewrite (call_throws_order _ this (add_fragment f s) g (lookup_insert_eq _ _ _)).
  - now rewrite insert_insert_eq.
  - exists (category_of f). split; [exact R |].
    unfold populating, strict_ne in Pf.
    destruct f, s; cbn in Pf |- *;
      rewrite ?negb_true_iff, ?String.eqb_neq in Pf;
      first [exact Pf | intros E; now apply app_eq_nil in E as [_ [=]]].
Qed.

Lemma populating_call_blocks_earlier_witness :
  bind (call 0 (Class "")) (fun b => call b (Id "main"))
       ({[ 0 := Selector.mk "div" "" [] [] [] "" ]} : heap)
  = Some (Throw order_message,
          <[0 := Selector.empty]>
            ({[ 0 := Selector.mk "div" "" [] [] [] "" ]} : heap)).
Proof.
  apply (populating_call_blocks_earlier
           ({[ 0 := Selector.mk "div" "" [] [] [] "" ]} : heap) 0
           (Selector.mk "div" "" [] [] [] "") (Class "") (Id "main")).
  - reflexivity.
  - intros (c & L & P). destruct c; cbn in L, P; try lia; congruence.
  - intros [Sg _]. discriminate.
  - reflexivity.
  - cbn. lia.
Defined.

(** X7. After a fragment call has thrown, the builder accepts any
    fragment call: the next call, of whatever method, returns [this] and
    the builder holds that fragment alone.  An error never repeats. *)
Theorem failed_call_then_any_call_succeeds (h : heap) (this : loc) (s : Selector.t)
    (f g : fragment) (msg : string) (h' : heap) :
  h !! this = Some s ->
  call this f h = Some (Throw msg, h') ->
  call this g h'
  = Some (Return this, <[this := add_fragment g Selector.empty]> h).
Proof.
  intros H E.
  assert (h' = <[this := Selector.empty]> h) as ->.
  { apply (reset_by_empty h this s h' H). now apply (reset_by_failure _ _ _ f msg). }
  rewrite (call_succeeds _ this Selector.empty g (lookup_insert_eq _ _ _)).
  - now rewrite insert_insert_eq.
  - intros (c & _ & P). destruct c; cbn in P; congruence.
  - intros [_ P]. destruct g; cbn in P; congruence.
Qed.

Lemma failed_call_then_any_call_succeeds_witness :
  call 0 (Id "b") ({[ 0 := Selector.empty ]} : heap)
  = Some (Return 0,
          <[0 := add_fragment (Id "b") Selector.empty]>
            ({[ 0 := Selector.mk "" "a" [] [] [] "" ]} : heap)).
Proof.
  apply (failed_call_then_any_call_succeeds
           ({[ 0 := Selector.mk "" "a" [] [] [] "" ]} : heap) 0
           (Selector.mk "" "a" [] [] [] "") (Id "b") (Id "b") duplicate_message
           ({[ 0 := Selector.empty ]} : heap)).
  - reflexivity.
  - vm_compute. reflexivity.
Defined.

(** ** The assembled string *)

Lemma append_eq_empty (a b : string) : a ++ b = "" -> a = "" /\ b = "".
Proof. destruct a; [intros E; split; [reflexivity | exact E] | discriminate]. Qed.

Lemma assembled_empty s : assembled s = "" <-> s = Selector.empty.
Proof.
  split; [| intros ->; reflexivity].
  destruct s as [e i cs ats ps pe]. unfold assembled.
  unfold element_part, id_part, class_part, attr_part, pseudoClass_part,
    pseudoElement_part.
  cbn [Selector.element Selector.id Selector.class Selector.attr
       Selector.pseudoClass Selector.pseudoElement].
  intros E.
  apply append_eq_empty in E as [-> E].
  apply append_eq_empty in E as [Ei E].
  apply append_eq_empty in E as [Ec E].
  apply append_eq_empty in E as [Ea E].
  apply append_eq_empty in E as [Ep Ee].
  destruct (String.eqb_spec i "") as [-> |]; [| discriminate].
  destruct (String.eqb_spec pe "") as [-> |]; [| discriminate].
  destruct cs; [| discriminate].
  destruct ps; [| discriminate].
  destruct ats as [| a [| a' ats]]; [reflexivity | discriminate | discriminate].
Qed.

(** X8. [stringify()] returns the empty string for an empty builder and
    for no other: one class, attr or pseudo-class, even with an empty
    token, already puts its prefix or brackets in the output. *)
Theorem stringify_empty_iff_empty_builder (h : heap) (this : loc) (s : Selector.t) :
  h !! this = Some s ->
  (Builder.stringify this h = Some (Return "", <[this := Selector.empty]> h)
   <-> s = Selector.empty)
  /\ (forall v, Builder.createSelector (add_fragment (Class v) s) <> "")
  /\ (forall v, Builder.createSelector (add_fragment (Attr v) s) <> "")
  /\ (forall v, Builder.createSelector (add_fragment (PseudoClass v) s) <> "").
Proof.
  intros H. rewrite (stringify_eq h this s H). split.
  - rewrite <- assembled_empty. split; [intros E; now inversion E | now intros ->].
  - repeat split; intros v; rewrite createSelector_assembled, assembled_empty;
      destruct s as [e i cs ats ps pe]; cbn; intros [=];
      match goal with
      | E : (_ ++ [_])%list = [] |- _ => now apply app_eq_nil in E as [_ [=]]
      end.
Qed.

Lemma stringify_empty_iff_empty_builder_witness :
  (Builder.stringify 0 ({[ 0 := Selector.empty ]} : heap)
   = Some (Return "", <[0 := Selector.empty]> ({[ 0 := Selector.empty ]} : heap))
   <-> Selector.empty = Selector.empty)
  /\ (forall v, Builder.createSelector (add_fragment (Class v) Selector.empty) <> "")
  /\ (forall v, Builder.createSelector (add_fragment (Attr v) Selector.empty) <> "")
  /\ (forall v, Builder.createSelector (add_fragment (PseudoClass v) Selector.empty) <> "").
Proof.
  apply (stringify_empty_iff_empty_builder ({[ 0 := Selector.empty ]} : heap) 0
                                           Selector.empty).
  reflexivity.
Defined.

(** ** [combine] and shared builders *)

Lemma combine_builders_eq (h : heap) b1 b2 s1 s2 c :
  h !! b1 = Some s1 -> h !! b2 = Some s2 -> b1 <> b2 ->
  cssSelectorBuilder.combine (ABuilder b1) c (ABuilder b2) h
  = Some (Return (AComposite (assembled s1 ++ " " ++ c ++ " " ++ assembled s2)),
          <[b2 := Selector.empty]> (<[b1 := Selector.empty]> h)).
Proof.
  intros H1 H2 N. unfold cssSelectorBuilder.combine. cbn [stringify].
  rewrite (bind_Return _ _ _ _ _ (stringify_eq h b1 s1 H1)).
  assert ((<[b1 := Selector.empty]> h) !! b2 = Some s2) as H2'
      by now rewrite lookup_insert_ne.
  now rewrite (bind_Return _ _ _ _ _ (stringify_eq _ b2 s2 H2')).
Qed.

Lemma combine_composite_builder_eq (h : heap) r b s c :
  h !! b = Some s ->
  cssSelectorBuilder.combine (AComposite r) c (ABuilder b) h
  = Some (Return (AComposite (r ++ " " ++ c ++ " " ++ assembled s)),
          <[b := Selector.empty]> h).
Proof.
  intros H. unfold cssSelectorBuilder.combine. cbn [stringify].
  rewrite (bind_Return _ _ h r h eq_refl).
  now rewrite (bind_Return _ _ _ _ _ (stringify_eq h b s H)).
Qed.

Lemma combine_builder_composite_eq (h : heap) r b s c :
  h !! b = Some s ->
  cssSelectorBuilder.combine (ABuilder b) c (AComposite r) h
  = Some (Return (AComposite (assembled s ++ " " ++ c ++ " " ++ r)),
          <[b := Selector.empty]> h).
Proof.
  intros H. unfold cssSelectorBuilder.combine. cbn [stringify].
  rewrite (bind_Return _ _ _ _ _ (stringify_eq h b s H)).
  now rewrite (bind_Return _ _ _ r _ eq_refl).
Qed.

(** X9. Passing the same builder as both operands of [combine] does not
    give its selector twice: the first [stringify()] resets the builder,
    so the right side of the composite is empty and the string ends with
    the combinator and a space. *)
Theorem combine_same_builder_twice (h : heap) (this : loc) (s : Selector.t)
    (c : string) :
  h !! this = Some s ->
  cssSelectorBuilder.combine (ABuilder this) c (ABuilder this) h
  = Some (Return (AComposite (Builder.createSelector s ++ " " ++ c ++ " ")),
          <[this := Selector.empty]> h).
Proof.
  intros H. unfold cssSelectorBuilder.combine. cbn [stringify].
  rewrite (bind_Return _ _ _ _ _ (stringify_eq h this s H)).
  rewrite (bind_Return _ _ _ _ _ (stringify_eq _ this _ (lookup_insert_eq _ _ _))).
  rewrite insert_insert_eq, createSelector_assembled. reflexivity.
Qed.

Lemma combine_same_builder_twice_witness :
  cssSelectorBuilder.combine (ABuilder 0) "+" (ABuilder 0)
    ({[ 0 := Selector.mk "div" "main" [] [] [] "" ]} : heap)
  = Some (Return (AComposite
                    (Builder.createSelector (Selector.mk "div" "main" [] [] [] "")
                     ++ " " ++ "+" ++ " ")),
          <[0 := Selector.empty]>
            ({[ 0 := Selector.mk "div" "main" [] [] [] "" ]} : heap)).
Proof.
  apply (combine_same_builder_twice
           ({[ 0 := Selector.mk "div" "main" [] [] [] "" ]} : heap) 0
           (Selector.mk "div" "main" [] [] [] "") "+").
  reflexivity.
Defined.

(** X10. On three different builders, nesting [combine] to the left or
    to the right gives the same composite string, the three selectors in
    order with a padded combinator between each pair, and the same
    store, with the three builders reset. *)
Theorem combine_nests_either_way (h : heap) (b1 b2 b3 : loc)
    (s1 s2 s3 : Selector.t) (c1 c2 : string) :
  h !! b1 = Some s1 -> h !! b2 = Some s2 -> h !! b3 = Some s3 ->
  b1 <> b2 -> b1 <> b3 -> b2 <> b3 ->
  bind (cssSelectorBuilder.combine (ABuilder b1) c1 (ABuilder b2))
       (fun x => cssSelectorBuilder.combine x c2 (ABuilder b3)) h
  = Some (Return (AComposite
                    (Builder.createSelector s1 ++ " " ++ c1 ++ " "
                     ++ Builder.createSelector s2 ++ " " ++ c2 ++ " "
                     ++ Builder.createSelector s3)),
          <[b3 := Selector.empty]>
            (<[b2 := Selector.empty]> (<[b1 := Selector.empty]> h)))
  /\ bind (cssSelectorBuilder.combine (ABuilder b2) c2 (ABuilder b3))
          (fun y => cssSelectorBuilder.combine (ABuilder b1) c1 y) h
     = bind (cssSelectorBuilder.combine (ABuilder b1) c1 (ABuilder b2))
            (fun x => cssSelectorBuilder.combine x c2 (ABuilder b3)) h.
Proof.
  intros H1 H2 H3 N12 N13 N23.
  rewrite !createSelector_assembled.
  assert (bind (cssSelectorBuilder.combine (ABuilder b1) c1 (ABuilder b2))
               (fun x => cssSelectorBuilder.combine x c2 (ABuilder b3)) h
          = Some (Return (AComposite
                            (assembled s1 ++ " " ++ c1 ++ " " ++ assembled s2
                             ++ " " ++ c2 ++ " " ++ assembled s3)),
                  <[b3 := Selector.empty]>
                    (<[b2 := Selector.empty]> (<[b1 := Selector.empty]> h)))) as El.
  { rewrite (bind_Return _ _ _ _ _ (combine_builders_eq h b1 b2 s1 s2 c1 H1 H2 N12)).
    rewrite (combine_composite_builder_eq _ _ b3 s3)
      by now rewrite !lookup_insert_ne.
    now rewrite !append_assoc. }
  split; [exact El |].
  rewrite El.
  rewrite (bind_Return _ _ _ _ _ (combine_builders_eq h b2 b3 s2 s3 c2 H2 H3 N23)).
  rewrite (combine_builder_composite_eq _ _ b1 s1)
    by now rewrite !lookup_insert_ne.
  do 2 f_equal.
  rewrite (insert_insert_ne _ b1 b3) by congruence.
  now rewrite (insert_insert_ne _ b1 b2) by congruence.
Qed.

Lemma combine_nests_either_way_witness :
  bind (cssSelectorBuilder.combine (ABuilder 0) "~" (ABuilder 1))
       (fun x => cssSelectorBuilder.combine x " " (ABuilder 2))
       ({[ 0 := Selector.mk "table" "data" [] [] [] "";
           1 := Selector.mk "tr" "" [] [] ["nth-of-type(even)"] "";
           2 := Selector.mk "td" "" [] [] ["nth-of-type(even)"] "" ]} : heap)
  = Some (Return (AComposite
                    "table#data ~ tr:nth-of-type(even)   td:nth-of-type(even)"),
          <[2 := Selector.empty]>
            (<[1 := Selector.empty]>
               (<[0 := Selector.empty]>
                  ({[ 0 := Selector.mk "table" "data" [] [] [] "";
                      1 := Selector.mk "tr" "" [] [] ["nth-of-type(even)"] "";
                      2 := Selector.mk "td" "" [] [] ["nth-of-type(even)"] "" ]}
                   : heap)))).
Proof.
  refine (proj1 (combine_nests_either_way
                   ({[ 0 := Selector.mk "table" "data" [] [] [] "";
                       1 := Selector.mk "tr" "" [] [] ["nth-of-type(even)"] "";
                       2 := Selector.mk "td" "" [] [] ["nth-of-type(even)"] "" ]}
                    : heap)
                   0 1 2
                   (Selector.mk "table" "data" [] [] [] "")
                   (Selector.mk "tr" "" [] [] ["nth-of-type(even)"] "")
                   (Selector.mk "td" "" [] [] ["nth-of-type(even)"] "")
                   "~" " " _ _ _ _ _ _));
    first [reflexivity | lia].
Defined.

(** ** Chains that are not in order *)

Lemma populating_populated f s :
  populating f = true -> populated (category_of f) (add_fragment f s).
Proof.
  unfold populating, strict_ne.
  destruct f, s; cbn; rewrite ?negb_true_iff, ?String.eqb_neq;
    first [ intros N; exact N
          | intros _ E; now apply app_eq_nil in E as [_ [=]] ].
Qed.

Lemma rank_inj c c' : rank c = rank c' -> c = c'.
Proof. destruct c, c'; cbn; intros E; first [reflexivity | discriminate]. Qed.

(** A call below the bound of a tight record throws. *)
Lemma tight_step_throws k g s :
  tight k s -> rank (category_of g) < k ->
  exists msg, (msg = order_message \/ msg = duplicate_message)
              /\ step g s = (Throw msg, Selector.empty).
Proof.
  intros [-> | (c & P & Ek)] L; [lia |].
  destruct (step_cases g s) as [[_ E] | [(_ & _ & _ & E) | (NL & NSP & _)]];
    [eauto | eauto |].
  exfalso. unfold next_rank in Ek.
  destruct (Nat.eq_dec (rank (category_of g)) (rank c)) as [Er | Nr].
  - apply rank_inj in Er. subst c.
    destruct (singleton (category_of g)) eqn:Sg; [tauto | lia].
  - apply NL. exists c. split; [| exact P].
    destruct (singleton c); lia.
Qed.

Lemma calls_unordered fs : forall k s (h : heap) this,
  settled k s -> tight k s -> h !! this = Some s ->
  forallb populating fs = true ->
  ordered_from k fs = false ->
  exists msg, (msg = order_message \/ msg = duplicate_message)
              /\ calls this fs h = Some (Throw msg, <[this := Selector.empty]> h).
Proof.
  induction fs as [| f fs IH]; intros k s h this S T H Pf O; [discriminate |].
  cbn [forallb] in Pf. apply andb_true_iff in Pf as [Pf Pfs].
  cbn [ordered_from calls] in *.
  destruct (Nat.leb_spec k (rank (category_of f))) as [L | L].
  - cbn [andb] in O.
    destruct (settled_step k f s S L) as [E S'].
    erewrite bind_Return by (rewrite (call_eq h this s f H), E; reflexivity).
    cbn [snd].
    destruct (IH _ _ (<[this := add_fragment f s]> h) this S') as (msg & Hm & Ec);
      [ right; exists (category_of f); split;
        [now apply populating_populated | reflexivity]
      | apply lookup_insert_eq | exact Pfs | exact O |].
    exists msg. split; [exact Hm |]. rewrite Ec. now rewrite insert_insert_eq.
  - destruct (tight_step_throws k f s T L) as (msg & Hm & E).
    exists msg. split; [exact Hm |].
    erewrite bind_Throw by (rewrite (call_eq h this s f H), E; reflexivity).
    reflexivity.
Qed.

(** X11. When every element, id and pseudo-element token of a chain is
    not the empty string, the chain started at the facade returns a
    builder exactly when its calls are in category order with element, id
    and pseudo-element at most once; otherwise it throws one of the two
    errors at the first offending call and the builder is left empty. *)
Theorem chain_returns_iff_valid (f : fragment) (fs : list fragment) (h : heap) :
  forallb populating (f :: fs) = true ->
  (valid_chain (f :: fs) = true
   -> chain f fs h
      = Some (Return (fresh (dom h)), <[fresh (dom h) := collect (f :: fs)]> h))
  /\ (valid_chain (f :: fs) = false
      -> exists msg,
          (msg = order_message \/ msg = duplicate_message)
          /\ chain f fs h
             = Some (Throw msg, <[fresh (dom h) := Selector.empty]> h))
  /\ (valid_chain (f :: fs) = true
      <-> exists this h', chain f fs h = Some (Return this, h')).
Proof.
  intros Pf.
  assert (valid_chain (f :: fs) = false ->
          exists msg,
            (msg = order_message \/ msg = duplicate_message)
            /\ chain f fs h
               = Some (Throw msg, <[fresh (dom h) := Selector.empty]> h)) as Hbad.
  { intros V. unfold valid_chain in V. cbn [ordered_from] in V.
    cbn [forallb] in Pf. apply andb_true_iff in Pf as [Pf Pfs].
    cbn [Nat.leb andb] in V.
    destruct (settled_step 0 f Selector.empty (settled_empty 0) (Nat.le_0_l _))
      as [_ S].
    unfold chain. rewrite (bind_Return _ _ _ _ _ (create_eq f h)).
    destruct (calls_unordered fs _ _ (<[fresh (dom h) := add_fragment f Selector.empty]> h)
                              (fresh (dom h)) S) as (msg & Hm & Ec);
      [ right; exists (category_of f); split;
        [now apply populating_populated | reflexivity]
      | apply lookup_insert_eq | exact Pfs | exact V |].
    exists msg. split; [exact Hm |]. rewrite Ec. now rewrite insert_insert_eq. }
  split; [apply chain_ordered |]. split; [exact Hbad |].
  split.
  - intros V. eexists _, _. now apply chain_ordered.
  - intros (this & h' & E).
    destruct (valid_chain (f :: fs)) eqn:V; [reflexivity |].
    destruct (Hbad eq_refl) as (msg & _ & E'). rewrite E in E'. discriminate.
Qed.

Lemma chain_returns_iff_valid_witness :
  exists msg,
    (msg = order_message \/ msg = duplicate_message)
    /\ chain (Element "div") [Class "a"; Id "main"] ∅
       = Some (Throw msg, <[fresh (dom (∅ : heap)) := Selector.empty]> ∅).
Proof.
  refine (proj1 (proj2 (chain_returns_iff_valid
                          (Element "div") [Class "a"; Id "main"] ∅ _)) _).
  - reflexivity.
  - reflexivity.
Defined.

(** ** The output, fragment by fragment *)

Lemma settled_unpopulated k s c :
  settled k s ->
  (if singleton c then k <= rank c else k < rank c) ->
  ~ populated c s.
Proof. intros S L P. specialize (S c P). destruct (singleton c); lia. Qed.

Lemma unpopulated_string a : ~ a <> "" -> a = "".
Proof. intros N. destruct (String.eqb_spec a ""); [assumption | contradiction]. Qed.

Lemma unpopulated_list (l : list string) : ~ l <> [] -> l = [].
Proof. intros N. destruct l; [reflexivity | exfalso; apply N; discriminate]. Qed.

Lemma concat_snoc sep (l : list string) v :
  l <> [] -> String.concat sep (l ++ [v])%list = String.concat sep l ++ sep ++ v.
Proof.
  induction l as [| x l IH]; [congruence |]. intros _.
  destruct l as [| y l]; [reflexivity |].
  change (x ++ sep ++ String.concat sep ((y :: l) ++ [v])%list
          = (x ++ sep ++ String.concat sep (y :: l)) ++ sep ++ v).
  rewrite IH by discriminate. now rewrite !append_assoc.
Qed.

Lemma class_like_snoc pre (l : list string) v :
  match (l ++ [v])%list with
  | [] => ""
  | _ :: _ => pre ++ String.concat pre (l ++ [v])%list
  end
  = match l with [] => "" | _ :: _ => pre ++ String.concat pre l end ++ pre ++ v.
Proof.
  destruct l as [| x l]; [reflexivity |].
  rewrite concat_snoc by discriminate.
  cbn [app]. now rewrite !append_assoc.
Qed.

Lemma attr_part_snoc (l : list string) v :
  String.concat "" (map (fun a => "[" ++ a ++ "]") (l ++ [v])%list)
  = String.concat "" (map (fun a => "[" ++ a ++ "]") l) ++ "[" ++ v ++ "]".
Proof.
  rewrite map_app, <- !join_concat, join_empty_app. cbn [map join]. reflexivity.
Qed.

(** In order, a call appends its own text to the output. *)
Lemma assembled_add_fragment k f s :
  settled k s -> k <= rank (category_of f) ->
  assembled (add_fragment f s) = assembled s ++ text_of f.
Proof.
  intros S L.
  assert (forall c, (if singleton c then rank (category_of f) <= rank c
                     else rank (category_of f) < rank c) -> ~ populated c s) as U.
  { intros c Lc. apply (settled_unpopulated k s c S). destruct (singleton c); lia. }
  destruct s as [e i cs ats ps pe]. unfold assembled.
  unfold element_part, id_part, class_part, attr_part, pseudoClass_part,
    pseudoElement_part.
  pose proof (U CElement) as Ue. pose proof (U CId) as Ui.
  pose proof (U CClass) as Uc. pose proof (U CAttr) as Ua.
  pose proof (U CPseudoClass) as Up. pose proof (U CPseudoElement) as Upe.
  clear U S L.
  destruct f as [v | v | v | v | v | v];
    cbn [category_of rank singleton populated Selector.element Selector.id
         Selector.class Selector.attr Selector.pseudoClass Selector.pseudoElement
         add_fragment Selector.set_element Selector.set_id Selector.set_class
         Selector.set_attr Selector.set_pseudoClass Selector.set_pseudoElement
         text_of] in *;
    repeat match goal with
           | X : ?a <= ?b -> ~ _ <> "" |- _ =>
               first [ assert (a <= b) as Y by lia;
                       apply X, unpopulated_string in Y; subst; clear X
                     | clear X ]
           | X : ?a < ?b -> ~ _ <> "" |- _ =>
               first [ assert (a < b) as Y by lia;
                       apply X, unpopulated_string in Y; subst; clear X
                     | clear X ]
           | X : ?a < ?b -> ~ _ <> [] |- _ =>
               first [ assert (a < b) as Y by lia;
                       apply X, unpopulated_list in Y; subst; clear X
                     | clear X ]
           end;
    rewrite ?class_like_snoc, ?attr_part_snoc;
    cbn [String.eqb map String.concat];
    rewrite ?append_assoc, ?append_empty_r, ?append_empty_l;
    try reflexivity.
Qed.

Lemma assembled_fold fs : forall k s,
  settled k s -> ordered_from k fs = true ->
  assembled (fold_left (fun s f => add_fragment f s) fs s)
  = assembled s ++ join "" (map text_of fs).
Proof.
  induction fs as [| f fs IH]; intros k s S O; cbn [fold_left map].
  - cbn [join]. now rewrite append_empty_r.
  - cbn [ordered_from] in O. apply andb_true_iff in O as [L O].
    apply Nat.leb_le in L.
    destruct (settled_step k f s S L) as [_ S'].
    rewrite (IH _ _ S' O), (assembled_add_fragment k f s S L).
    now rewrite join_empty_cons, append_assoc.
Qed.

(** X12. For a chain in category order, [stringify()] returns the texts
    of its calls one after the other, in call order: the element token
    as it is, ['#'] before an id, ['.'] before each class, brackets
    around each attr, [':'] before each pseudo-class, ['::'] before the
    pseudo-element, and nothing for an id or pseudo-element whose token
    is the empty string. *)
Theorem stringify_concatenates_fragments (f : fragment) (fs : list fragment)
    (h : heap) :
  valid_chain (f :: fs) = true ->
  bind (chain f fs) Builder.stringify h
  = Some (Return (join "" (map text_of (f :: fs))),
          <[fresh (dom h) := Selector.empty]> h).
Proof.
  intros V.
  rewrite (bind_Return _ _ _ _ _ (chain_ordered f fs h V)).
  rewrite (stringify_eq _ _ _ (lookup_insert_eq _ _ _)), insert_insert_eq.
  unfold collect.
  rewrite (assembled_fold (f :: fs) 0 Selector.empty (settled_empty 0) V).
  reflexivity.
Qed.

Lemma stringify_concatenates_fragments_witness :
  bind (chain (Element "a") [Attr "href"; Attr "target"; PseudoClass "focus"])
       Builder.stringify ∅
  = Some (Return (join "" (map text_of [Element "a"; Attr "href"; Attr "target";
                                        PseudoClass "focus"])),
          <[fresh (dom (∅ : heap)) := Selector.empty]> ∅).
Proof.
  apply (stringify_concatenates_fragments
           (Element "a") [Attr "href"; Attr "target"; PseudoClass "focus"] ∅).
  reflexivity.
Defined.

(** X13. A failed call discards what the chain had built: when a
    fragment call throws, a [stringify()] on the same builder afterwards
    returns the empty string, whatever the builder held before. *)
Theorem failure_discards_earlier_fragments (h : heap) (this : loc) (s : Selector.t)
    (f : fragment) (msg : string) (h' : heap) :
  h !! this = Some s ->
  call this f h = Some (Throw msg, h') ->
  Builder.stringify this h' = Some (Return "", h').
Proof.
  intros H E.
  assert (h' = <[this := Selector.empty]> h) as ->.
  { apply (reset_by_empty h this s h' H). now apply (reset_by_failure _ _ _ f msg). }
  rewrite (stringify_eq _ _ _ (lookup_insert_eq _ _ _)).
  now rewrite insert_insert_eq.
Qed.

Lemma failure_discards_earlier_fragments_witness :
  Builder.stringify 0 ({[ 0 := Selector.empty ]} : heap)
  = Some (Return "", ({[ 0 := Selector.empty ]} : heap)).
Proof.
  apply (failure_discards_earlier_fragments
           ({[ 0 := Selector.mk "a" "" ["b"] [] [] "" ]} : heap) 0
           (Selector.mk "a" "" ["b"] [] [] "") (Id "x") order_message
           ({[ 0 := Selector.empty ]} : heap)).
  - reflexivity.
  - vm_compute. reflexivity.
Defined.

(** ** Repeated classes, attrs and pseudo-classes *)

Lemma settled_of_not_later c s :
  singleton c = false -> ~ later_populated c s -> settled (rank c) s.
Proof.
  intros Sg NL c' P.
  destruct (Nat.le_gt_cases (rank c') (rank c)) as [L | L].
  - destruct (singleton c') eqn:Sg'; [| exact L].
    destruct (Nat.eq_dec (rank c') (rank c)) as [E | N]; [| lia].
    apply rank_inj in E. congruence.
  - exfalso. apply NL. now exists c'.
Qed.

(** X14. Class, attr and pseudo-class may be called any number of times
    in a row, with repeated tokens too: on a builder with no later
    category populated the calls all return, and the tokens are added to
    the category in call order, after those already there. *)
Theorem list_calls_accumulate (h : heap) (this : loc) (s : Selector.t)
    (vs : list string) :
  h !! this = Some s ->
  (~ later_populated CClass s ->
   calls this (map Class vs) h
   = Some (Return this,
           <[this := Selector.set_class (Selector.class s ++ vs)%list s]> h))
  /\ (~ later_populated CAttr s ->
      calls this (map Attr vs) h
      = Some (Return this,
              <[this := Selector.set_attr (Selector.attr s ++ vs)%list s]> h))
  /\ (~ later_populated CPseudoClass s ->
      calls this (map PseudoClass vs) h
      = Some (Return this,
              <[this := Selector.set_pseudoClass
                          (Selector.pseudoClass s ++ vs)%list s]> h)).
Proof.
  intros H.
  assert (forall (mk : string -> fragment) c,
             (forall v, category_of (mk v) = c) -> singleton c = false ->
             ordered_from (rank c) (map mk vs) = true) as Ho.
  { intros mk c Ec Sg. induction vs as [| v vs IH]; [reflexivity |].
    cbn [map ordered_from]. unfold next_rank. rewrite Ec, Sg, Nat.leb_refl.
    exact IH. }
  repeat split; intros NL.
  - rewrite (calls_ordered (map Class vs) (rank CClass) s h this
               (settled_of_not_later CClass s eq_refl NL)
               (Ho Class CClass (fun _ => eq_refl) eq_refl) H).
    do 3 f_equal. clear. revert s.
    induction vs as [| v vs IH]; intros [e i cs ats ps pe]; cbn [map fold_left].
    + cbn. now rewrite app_nil_r.
    + rewrite IH. cbn. now rewrite <- app_assoc.
  - rewrite (calls_ordered (map Attr vs) (rank CAttr) s h this
               (settled_of_not_later CAttr s eq_refl NL)
               (Ho Attr CAttr (fun _ => eq_refl) eq_refl) H).
    do 3 f_equal. clear. revert s.
    induction vs as [| v vs IH]; intros [e i cs ats ps pe]; cbn [map fold_left].
    + cbn. now rewrite app_nil_r.
    + rewrite IH. cbn. now rewrite <- app_assoc.
  - rewrite (calls_ordered (map PseudoClass vs) (rank CPseudoClass) s h this
               (settled_of_not_later CPseudoClass s eq_refl NL)
               (Ho PseudoClass CPseudoClass (fun _ => eq_refl) eq_refl) H).
    do 3 f_equal. clear. revert s.
    induction vs as [| v vs IH]; intros [e i cs ats ps pe]; cbn [map fold_left].
    + cbn. now rewrite app_nil_r.
    + rewrite IH. cbn. now rewrite <- app_assoc.
Qed.

Lemma list_calls_accumulate_witness :
  calls 0 (map Class ["b"; "b"; "c"])
        ({[ 0 := Selector.mk "a" "x" ["b"] [] [] "" ]} : heap)
  = Some (Return 0,
          <[0 := Selector.set_class
                   (Selector.class (Selector.mk "a" "x" ["b"] [] [] "")
                    ++ ["b"; "b"; "c"])%list
                   (Selector.mk "a" "x" ["b"] [] [] "")]>
            ({[ 0 := Selector.mk "a" "x" ["b"] [] [] "" ]} : heap)).
Proof.
  refine (proj1 (list_calls_accumulate
                   ({[ 0 := Selector.mk "a" "x" ["b"] [] [] "" ]} : heap) 0
                   (Selector.mk "a" "x" ["b"] [] [] "") ["b"; "b"; "c"] _) _).
  - reflexivity.
  - intros (c & L & P). destruct c; cbn in L, P; try lia; congruence.
Defined.
